(** * Inventory and sales reconciliation: the core of [src/App.tsx]

    The development embeds the body of [processData] (the part inside its
    [try] block, between the parsed ledgers and the report rows handed to the
    workbook writer) together with its helpers [groupBySum] and [getQtyCol],
    and proves properties of the aggregation, of the redistribution of
    negative ending balances and of the two target-balancing passes.

    Conventions of the embedding.
    - A JavaScript number is an exact rational ([Qc]); [+ - * /] are the field
      operations, [Math.floor] is the integer floor.  Rounding of IEEE doubles,
      [NaN] as a stored value and the infinities are outside the model; the
      only place the source can meet [NaN] is the result of [parseFloat],
      which is an [option].
    - [undefined] is [None]: a missing cell of a row, a missing header, a
      missing map entry.
    - A [Map] and a [Set] keep insertion order, which fixes the order of the
      report rows and the tie-breaks of the balancing passes; they are
      association lists and duplicate-free lists.
    - An array updated through an index is a list; reading a property of
      [arr[i]] when [arr[i]] is [undefined] throws, which is [Throw]. *)

From Stdlib Require Import QArith Qcanon Qround Ascii String.
From stdpp Require Import numbers base list strings gmap.

Local Open Scope Qc_scope.

(** ** Numbers *)

Abbreviation num := Qc.

(** [Math.floor] *)
Definition floor (x : num) : num := Qc_of_Z (Qfloor x).

(** [Math.abs] *)
Definition abs (x : num) : num := if bool_decide (x < 0) then - x else x.

(** [Math.min] on two arguments *)
Definition min (a b : num) : num := if bool_decide (b < a) then b else a.

(** ** JavaScript values used by the source *)

(** Truthiness of a string: every string but the empty one. *)
Definition truthy (s : string) : bool := negb (String.eqb s "").

(** [c || d] where [c] is a string or [undefined]. *)
Definition or_str (c : option string) (d : string) : string :=
  match c with
  | Some s => if truthy s then s else d
  | None => d
  end.

(** [x || d] where [x] is a number, [NaN] or [undefined] ([None] for the
    last two): zero, [NaN] and [undefined] are falsy. *)
Definition or_num (x : option num) (d : num) : num :=
  match x with
  | Some q => if bool_decide (q = 0) then d else q
  | None => d
  end.

(** Property name used by [obj[k]]: [undefined] is converted to the
    string "undefined". *)
Definition prop (k : option string) : string :=
  match k with
  | Some s => s
  | None => "undefined"
  end.

(** Runtime errors. *)
Inductive error : Type :=
  | TypeError (what : string).

Inductive result (A : Type) : Type :=
  | Ok (a : A)
  | Throw (e : error).
Arguments Ok {A} a.
Arguments Throw {A} e.

#[global] Instance result_ret : MRet result := fun A a => Ok a.
#[global] Instance result_bind : MBind result := fun A B f m =>
  match m with
  | Ok a => f a
  | Throw e => Throw e
  end.

(** [forEach] / [reduce] with a body that may throw. *)
Fixpoint foldlM {A B : Type} (f : B -> A -> result B) (l : list A) (b : B)
  : result B :=
  match l with
  | [] => Ok b
  | x :: l' => b' ← f b x; foldlM f l' b'
  end.

(** [arr[i].field = ...] and [arr[i].field += ...]: throws when [arr[i]] is
    [undefined]. *)
Definition modify {A : Type} (i : nat) (f : A -> A) (l : list A)
  : result (list A) :=
  match l !! i with
  | Some x => Ok (<[i := f x]> l)
  | None => Throw (TypeError "Cannot read properties of undefined")
  end.

(** ** Insertion-ordered [Map] with string keys *)

Definition JsMap (V : Type) : Type := list (string * V).

Fixpoint map_get {V : Type} (k : string) (m : JsMap V) : option V :=
  match m with
  | [] => None
  | (k', v) :: m' => if String.eqb k' k then Some v else map_get k m'
  end.

Definition map_has {V : Type} (k : string) (m : JsMap V) : bool :=
  match map_get k m with
  | Some _ => true
  | None => false
  end.

(** [m.set(k, v)]: an existing key keeps its position, a new key goes last. *)
Fixpoint map_set {V : Type} (k : string) (v : V) (m : JsMap V) : JsMap V :=
  match m with
  | [] => [(k, v)]
  | (k', v') :: m' =>
      if String.eqb k' k then (k', v) :: m' else (k', v') :: map_set k v m'
  end.

Definition map_keys {V : Type} (m : JsMap V) : list string := m.*1.

(** [new Set(xs)]: the distinct elements of [xs] in order of first
    occurrence. *)
Definition set_add {A : Type} `{EqDecision A} (acc : list A) (x : A) : list A :=
  if bool_decide (x ∈ acc) then acc else acc ++ [x].

Definition new_Set {A : Type} `{EqDecision A} (xs : list A) : list A :=
  fold_left set_add xs [].

(** ** Ledgers *)

(** A row as the CSV reader produces it with [header: true]: an object from
    header names to cell texts. *)
Abbreviation Row := (gmap string string).

Record ParsedCSV : Type := {
  data : list Row;
  headers : list string
}.

(** The entry of the [inventory] map (lines 128-134). *)
Record Inventory : Type := {
  inv_code : string;
  inv_q_open : num;
  inv_q_purch : num;
  inv_q_ret : num;
  inv_available : num
}.

(** The entry of the [salesAgg] map (line 138). *)
Record SalesAgg : Type := {
  qty : num;
  total : num;
  tax : num;
  tax_pct : num
}.

(** An element of [finalData].  In the source the four sales fields are
    stored under the sales column names and the three fields of the last
    group under Persian names; they are added by the balancing passes and by
    the report step, each one assigned on every element before it is read, so
    their initial value [0] is never observed.
    - [s_qty]: [COL_S_QTY]; [s_total]: [COL_S_TOTAL];
      [s_tax_amt]: [COL_S_TAX_AMT]; [s_tax_pct]: [COL_S_TAX_PCT];
    - [sales_final]: the balanced sales amount; [tax_final]: the balanced tax
      amount; [ending_final]: the final ending balance. *)
Record FinalRow : Type := {
  code : string;
  q_open : num;
  q_purch : num;
  q_ret : num;
  available : num;
  s_qty : num;
  s_total : num;
  s_tax_amt : num;
  s_tax_pct : num;
  ending : num;
  sales_final : num;
  tax_final : num;
  ending_final : num
}.

(** A row of [reportData] (lines 271-280), in column order. *)
Record ReportRow : Type := {
  r_code : string;
  r_open : num;
  r_purch : num;
  r_ret : num;
  r_qty : num;
  r_sales : num;
  r_tax : num;
  r_ending : num
}.

#[global] Instance FinalRow_eq_dec : EqDecision FinalRow.
Proof. solve_decision. Defined.
#[global] Instance ReportRow_eq_dec : EqDecision ReportRow.
Proof. solve_decision. Defined.
#[global] Instance error_eq_dec : EqDecision error.
Proof. solve_decision. Defined.
#[global] Instance result_eq_dec {A : Type} `{EqDecision A} : EqDecision (result A).
Proof. solve_decision. Defined.

(** Assignments to the sales fields of an element of [finalData]. *)
Definition set_sold (r : FinalRow) (q t x : num) : FinalRow :=
  {| code := code r; q_open := q_open r; q_purch := q_purch r;
     q_ret := q_ret r; available := available r;
     s_qty := q; s_total := t; s_tax_amt := x;
     s_tax_pct := s_tax_pct r; ending := ending r;
     sales_final := sales_final r; tax_final := tax_final r;
     ending_final := ending_final r |}.

Definition set_sales_final (v : num) (r : FinalRow) : FinalRow :=
  {| code := code r; q_open := q_open r; q_purch := q_purch r;
     q_ret := q_ret r; available := available r;
     s_qty := s_qty r; s_total := s_total r; s_tax_amt := s_tax_amt r;
     s_tax_pct := s_tax_pct r; ending := ending r;
     sales_final := v; tax_final := tax_final r;
     ending_final := ending_final r |}.

Definition set_tax_final (v : num) (r : FinalRow) : FinalRow :=
  {| code := code r; q_open := q_open r; q_purch := q_purch r;
     q_ret := q_ret r; available := available r;
     s_qty := s_qty r; s_total := s_total r; s_tax_amt := s_tax_amt r;
     s_tax_pct := s_tax_pct r; ending := ending r;
     sales_final := sales_final r; tax_final := v;
     ending_final := ending_final r |}.

Definition set_ending_final (v : num) (r : FinalRow) : FinalRow :=
  {| code := code r; q_open := q_open r; q_purch := q_purch r;
     q_ret := q_ret r; available := available r;
     s_qty := s_qty r; s_total := s_total r; s_tax_amt := s_tax_amt r;
     s_tax_pct := s_tax_pct r; ending := ending r;
     sales_final := sales_final r; tax_final := tax_final r;
     ending_final := v |}.

(** An element of [grpIndices]: a copy of the row together with its index in
    [finalData] ([{ ...r, index: i }]). *)
Abbreviation Item := (FinalRow * nat)%type.

(** The three accumulators of the donor loop (lines 197-199). *)
Record Totals : Type := {
  totalMoveQty : num;
  totalMoveSales : num;
  totalMoveTax : num
}.

(** Column names of the sales ledger. *)
Definition COL_S_CODE : string := "کد کالا".
Definition COL_S_QTY : string := "تعداد واحد جز".
Definition COL_S_TAX_PCT : string := "درصد مالیات".
Definition COL_S_TOTAL : string := "فروش".
Definition COL_S_TAX_AMT : string := "جمع مالیات سطر".

Section Core.

(** The two built-ins whose result depends on the text of a cell.
    [parseFloat s] is [None] when JavaScript returns [NaN]. *)
Variable parseFloat : string -> option num.
Variable trim : string -> string.

(** [parseFloat(cell)] for a cell that may be [undefined]:
    [parseFloat(undefined)] is [NaN]. *)
Definition parseFloatCell (c : option string) : option num :=
  match c with
  | Some s => parseFloat s
  | None => None
  end.

(** *** [groupBySum] (lines 58-68) *)

Definition groupBySum_row (groupCol : string) (sumCol : option string)
    (result : JsMap num) (row : Row) : JsMap num :=
  let key := or_str (row !! groupCol) "" in
  let val := or_num (parseFloatCell (row !! prop sumCol)) 0 in
  if truthy key
  then map_set key (or_num (map_get key result) 0 + val) result
  else result.

Definition groupBySum (data : list Row) (groupCol : string)
    (sumCol : option string) : JsMap num :=
  fold_left (groupBySum_row groupCol sumCol) data [].

(** *** [getQtyCol] (lines 96-103) *)

Definition possible : list string :=
  ["تعداد واحد جز"; "تعداد"; "مانده تعدادی"].

Fixpoint getQtyCol_for (hs : list string) (ps : list string) : option string :=
  match ps with
  | [] => hs !! 1%nat
  | p :: ps' =>
      match List.find (fun h => String.eqb (trim h) p) hs with
      | Some found => if truthy found then Some found else getQtyCol_for hs ps'
      | None => getQtyCol_for hs ps'
      end
  end.

Definition getQtyCol (df : ParsedCSV) : option string :=
  getQtyCol_for (headers df) possible.

(** *** Inventory and sales aggregation (lines 105-161) *)

Definition truthy_cell (c : option string) : option string :=
  match c with
  | Some s => if truthy s then Some s else None
  | None => None
  end.

(** [dfSales.data.map(r => r[COL_S_CODE]).filter(Boolean)] *)
Definition sales_codes (dfSales : ParsedCSV) : list string :=
  omap (fun r : Row => truthy_cell (r !! COL_S_CODE)) (data dfSales).

Definition allCodes_of (openSum purchSum retSum : JsMap num)
    (dfSales : ParsedCSV) : list string :=
  new_Set (map_keys openSum ++ map_keys purchSum ++ map_keys retSum
           ++ sales_codes dfSales).

Definition inventory_set (openSum purchSum retSum : JsMap num)
    (inventory : JsMap Inventory) (c : string) : JsMap Inventory :=
  let q_open := or_num (map_get c openSum) 0 in
  let q_purch := or_num (map_get c purchSum) 0 in
  let q_ret := or_num (map_get c retSum) 0 in
  map_set c {| inv_code := c; inv_q_open := q_open; inv_q_purch := q_purch;
               inv_q_ret := q_ret;
               inv_available := q_open + q_purch - q_ret |} inventory.

Definition inventory_of (openSum purchSum retSum : JsMap num)
    (allCodes : list string) : JsMap Inventory :=
  fold_left (inventory_set openSum purchSum retSum) allCodes [].

(** The body of [dfSales.data.forEach] (lines 141-161).  [agg] is the object
    stored in [salesAgg]; updating its fields updates the entry in place. *)
Definition salesAgg_row (st : JsMap SalesAgg * JsMap num) (row : Row)
  : JsMap SalesAgg * JsMap num :=
  let '(salesAgg, taxMap) := st in
  let c := or_str (row !! COL_S_CODE) "" in
  if negb (truthy c) then st else
  let qty' := or_num (parseFloatCell (row !! COL_S_QTY)) 0 in
  let total' := or_num (parseFloatCell (row !! COL_S_TOTAL)) 0 in
  let tax' := or_num (parseFloatCell (row !! COL_S_TAX_AMT)) 0 in
  let taxPct := or_num (parseFloatCell (row !! COL_S_TAX_PCT)) 0 in
  let salesAgg1 :=
    if negb (map_has c salesAgg)
    then map_set c {| qty := 0; total := 0; tax := 0; tax_pct := taxPct |}
           salesAgg
    else salesAgg in
  let salesAgg2 :=
    match map_get c salesAgg1 with
    | Some agg =>
        map_set c {| qty := qty agg + qty'; total := total agg + total';
                     tax := tax agg + tax'; tax_pct := tax_pct agg |} salesAgg1
    | None => salesAgg1 (* not reached: the entry exists, see
                           [salesAgg_entry_exists] *)
    end in
  let taxMap1 :=
    if negb (map_has c taxMap) then map_set c taxPct taxMap else taxMap in
  (salesAgg2, taxMap1).

Definition aggregateSales (dfSales : ParsedCSV)
  : JsMap SalesAgg * JsMap num :=
  fold_left salesAgg_row (data dfSales) ([], []).

(** *** Merge of inventory and sales (lines 163-182) *)

Definition noSales : SalesAgg :=
  {| qty := 0; total := 0; tax := 0; tax_pct := 0 |}.

Definition mergeRow (inventory : JsMap Inventory) (salesAgg : JsMap SalesAgg)
    (taxMap : JsMap num) (c : string) : FinalRow :=
  let inv := map_get c inventory in
  let sales := default noSales (map_get c salesAgg) in
  let ending' := or_num (inv_available <$> inv) 0 - qty sales in
  {| code := c;
     q_open := or_num (inv_q_open <$> inv) 0;
     q_purch := or_num (inv_q_purch <$> inv) 0;
     q_ret := or_num (inv_q_ret <$> inv) 0;
     available := or_num (inv_available <$> inv) 0;
     s_qty := qty sales;
     s_total := total sales;
     s_tax_amt := tax sales;
     s_tax_pct := or_num (map_get c taxMap) 0;
     ending := ending';
     sales_final := 0; tax_final := 0; ending_final := 0 |}.

(** [finalData] as it stands at line 182. *)
Definition mergeData (dfOpen dfPurch dfRet dfSales : ParsedCSV)
  : list FinalRow :=
  let openSum := groupBySum (data dfOpen) COL_S_CODE (getQtyCol dfOpen) in
  let purchSum := groupBySum (data dfPurch) COL_S_CODE (getQtyCol dfPurch) in
  let retSum := groupBySum (data dfRet) COL_S_CODE (getQtyCol dfRet) in
  let allCodes := allCodes_of openSum purchSum retSum dfSales in
  let inventory := inventory_of openSum purchSum retSum allCodes in
  let '(salesAgg, taxMap) := aggregateSales dfSales in
  mergeRow inventory salesAgg taxMap <$> allCodes.

(** *** Redistribution of negative ending balances (lines 184-227) *)

Definition grpIndices (finalData : list FinalRow) (taxGrp : num) : list Item :=
  filter (fun it : Item => s_tax_pct it.1 = taxGrp)
         (imap (fun i r => (r, i)) finalData).

Definition negItems (finalData : list FinalRow) (taxGrp : num) : list Item :=
  filter (fun it : Item => ending it.1 < 0) (grpIndices finalData taxGrp).

Definition posItems (finalData : list FinalRow) (taxGrp : num) : list Item :=
  filter (fun it : Item => 0 < ending it.1 ∧ 0 < s_total it.1)
         (grpIndices finalData taxGrp).

Definition deficitRatio (item : Item) : num :=
  min 1 (abs (ending item.1) / or_num (Some (s_qty item.1)) 1).

Definition moveQty (item : Item) : num := s_qty item.1 * deficitRatio item.
Definition moveSales (item : Item) : num := s_total item.1 * deficitRatio item.
Definition moveTax (item : Item) : num := s_tax_amt item.1 * deficitRatio item.

Definition noMove : Totals :=
  {| totalMoveQty := 0; totalMoveSales := 0; totalMoveTax := 0 |}.

(** Lines 212-214: the three [-=] on [finalData[item.index]]. *)
Definition subtractMove (item : Item) (r : FinalRow) : FinalRow :=
  set_sold r (s_qty r - moveQty item) (s_total r - moveSales item)
    (s_tax_amt r - moveTax item).

(** The body of [negItems.forEach] (lines 201-215). *)
Definition negItems_each (st : Totals * list FinalRow) (item : Item)
  : result (Totals * list FinalRow) :=
  let t := {| totalMoveQty := totalMoveQty st.1 + moveQty item;
              totalMoveSales := totalMoveSales st.1 + moveSales item;
              totalMoveTax := totalMoveTax st.1 + moveTax item |} in
  finalData ← modify item.2 (subtractMove item) st.2;
  mret (t, finalData).

Definition totalPosSales_of (items : list Item) : num :=
  fold_left (fun sum (item : Item) => sum + s_total item.1) items 0.

(** Lines 221-224: the weight of a recipient and the three [+=] on
    [finalData[item.index]]. *)
Definition addShare (t : Totals) (totalPosSales : num) (item : Item)
    (r : FinalRow) : FinalRow :=
  let weight := s_total item.1 / totalPosSales in
  set_sold r (s_qty r + weight * totalMoveQty t)
    (s_total r + weight * totalMoveSales t)
    (s_tax_amt r + weight * totalMoveTax t).

(** The body of [posItems.forEach] (lines 220-225). *)
Definition posItems_each (t : Totals) (totalPosSales : num)
    (finalData : list FinalRow) (item : Item) : result (list FinalRow) :=
  modify item.2 (addShare t totalPosSales item) finalData.

(** The body of [taxGroups.forEach] (lines 187-227). *)
Definition taxGroups_each (finalData : list FinalRow) (taxGrp : num)
  : result (list FinalRow) :=
  let neg := negItems finalData taxGrp in
  let pos := posItems finalData taxGrp in
  if bool_decide (0 < length neg ∧ 0 < length pos)%nat then
    st ← foldlM negItems_each neg (noMove, finalData);
    foldlM (posItems_each st.1 (totalPosSales_of pos)) pos st.2
  else mret finalData.

Definition taxGroups_of (finalData : list FinalRow) : list num :=
  new_Set (s_tax_pct <$> finalData).

Definition distributeNegative (finalData : list FinalRow)
  : result (list FinalRow) :=
  foldlM taxGroups_each (taxGroups_of finalData) finalData.

(** *** Target balancing (lines 229-264) *)

(** [arr.reduce((sum, r) => sum + f(r), 0)] *)
Definition reduce_sum {A : Type} (f : A -> num) (arr : list A) : num :=
  fold_left (fun sum r => sum + f r) arr 0.

(** [arr.reduce((maxIdx, r, i, arr) => f(r) > f(arr[maxIdx]) ? i : maxIdx, 0)] *)
Definition maxIdx_each (f : FinalRow -> num) (arr : list FinalRow)
    (maxIdx : nat) (ir : nat * FinalRow) : result nat :=
  match arr !! maxIdx with
  | Some m => mret (if bool_decide (f m < f ir.2) then ir.1 else maxIdx)
  | None => Throw (TypeError "Cannot read properties of undefined")
  end.

Definition maxIdx_of (f : FinalRow -> num) (arr : list FinalRow) : result nat :=
  foldlM (maxIdx_each f arr) (imap (fun i r => (i, r)) arr) 0%nat.

Definition salesRatio_of (targetSales : num) (finalData : list FinalRow) : num :=
  let totalSales := reduce_sum s_total finalData in
  if bool_decide (0 < totalSales) then targetSales / totalSales else 1.

Definition salesTargeting (targetSales : num) (finalData : list FinalRow)
  : result (list FinalRow) :=
  let salesRatio := salesRatio_of targetSales finalData in
  let finalData1 :=
    (fun r => set_sales_final (floor (s_total r * salesRatio)) r)
      <$> finalData in
  let currentTotalSales := reduce_sum sales_final finalData1 in
  let salesDiff := targetSales - currentTotalSales in
  if bool_decide (salesDiff ≠ 0) then
    maxIdx ← maxIdx_of sales_final finalData1;
    modify maxIdx (fun r => set_sales_final (sales_final r + salesDiff) r)
      finalData1
  else mret finalData1.

Definition taxableItems_of (finalData : list FinalRow) : list FinalRow :=
  filter (fun r => 0 < s_tax_pct r) finalData.

Definition taxRatio_of (targetTax : num) (finalData : list FinalRow) : num :=
  let totalTax := reduce_sum s_tax_amt (taxableItems_of finalData) in
  if bool_decide (0 < totalTax) then targetTax / totalTax else 1.

Definition taxTargeting (targetTax : num) (finalData : list FinalRow)
  : result (list FinalRow) :=
  let taxableItems := taxableItems_of finalData in
  let taxRatio := taxRatio_of targetTax finalData in
  let finalData1 :=
    (fun r =>
       if bool_decide (0 < s_tax_pct r)
       then set_tax_final (floor (s_tax_amt r * taxRatio)) r
       else set_tax_final 0 r) <$> finalData in
  let currentTotalTax := reduce_sum tax_final finalData1 in
  let taxDiff := targetTax - currentTotalTax in
  if bool_decide (taxDiff ≠ 0 ∧ (0 < length taxableItems)%nat) then
    maxTaxIdx ← maxIdx_of tax_final finalData1;
    modify maxTaxIdx (fun r => set_tax_final (tax_final r + taxDiff) r)
      finalData1
  else mret finalData1.

(** *** Report (lines 266-280) *)

Definition finalEnding (finalData : list FinalRow) : list FinalRow :=
  (fun r => set_ending_final (available r - s_qty r) r) <$> finalData.

Definition reportRow (r : FinalRow) : ReportRow :=
  {| r_code := code r; r_open := q_open r; r_purch := q_purch r;
     r_ret := q_ret r; r_qty := s_qty r; r_sales := sales_final r;
     r_tax := tax_final r; r_ending := ending_final r |}.

Definition reportData_of (finalData : list FinalRow) : list ReportRow :=
  reportRow <$> finalData.

(** *** [processData] (lines 79-280)

    The result is [reportData], or the exception that reaches the [catch]
    clause of line 306, after which no report is produced. *)
Definition processData (dfOpen dfPurch dfRet dfSales : ParsedCSV)
    (targetSales targetTax : num) : result (list ReportRow) :=
  let finalData := mergeData dfOpen dfPurch dfRet dfSales in
  finalData1 ← distributeNegative finalData;
  finalData2 ← salesTargeting targetSales finalData1;
  finalData3 ← taxTargeting targetTax finalData2;
  mret (reportData_of (finalEnding finalData3)).

End Core.

(** ** Concrete built-ins for the examples

    [parseDecimal] reads an optional sign, decimal digits and an optional
    fraction, and is [None] when there is no digit: on such texts it agrees
    with [parseFloat].  [trimSpaces] removes blanks at both ends. *)

Definition digit_of (c : ascii) : option Z :=
  let n := nat_of_ascii c in
  if ((48 <=? n) && (n <=? 57))%nat then Some (Z.of_nat (n - 48)) else None.

Fixpoint digits (s : string) (acc : Z) (n : nat) : Z * nat * string :=
  match s with
  | String c s' =>
      match digit_of c with
      | Some d => digits s' (10 * acc + d)%Z (S n)
      | None => (acc, n, s)
      end
  | EmptyString => (acc, n, s)
  end.

Definition parseDecimal (s : string) : option num :=
  let '(neg, s1) :=
    match s with
    | String "-" s' => (true, s')
    | String "+" s' => (false, s')
    | _ => (false, s)
    end in
  let '(ip, n1, s2) := digits s1 0%Z 0%nat in
  let '(fp, n2, _) :=
    match s2 with
    | String "." s' => digits s' 0%Z 0%nat
    | _ => (0%Z, 0%nat, s2)
    end in
  if (n1 + n2 =? 0)%nat then None
  else
    let v := Qc_of_Z ip + Q2Qc (fp # Pos.pow 10 (Pos.of_nat n2)) in
    Some (if neg then - v else v).

Fixpoint dropSpaces (s : string) : string :=
  match s with
  | String " " s' => dropSpaces s'
  | _ => s
  end.

Definition trimSpaces (s : string) : string :=
  String.rev (dropSpaces (String.rev (dropSpaces s))).

Definition row_of (cells : list (string * string)) : Row := list_to_map cells.

(** ** Vocabulary of the statements *)

(** The sum a [Map] of sums holds for a key, read as the source reads it
    ([result.get(key) || 0]). *)
Definition group_sum (k : string) (m : JsMap num) : num :=
  or_num (map_get k m) 0.

(** The sales aggregate of a code ([salesAgg.get(code) || { ... 0 ... }]). *)
Definition sold_of (c : string) (salesAgg : JsMap SalesAgg) : SalesAgg :=
  default noSales (map_get c salesAgg).

(** [c] is a non-empty product code of some row of the ledger. *)
Definition has_code (df : ParsedCSV) (c : string) : Prop :=
  c ≠ "" ∧ ∃ row, row ∈ data df ∧ row !! COL_S_CODE = Some c.

(** The non-empty group keys of the rows, in row order. *)
Definition keys_of (groupCol : string) (rows : list Row) : list string :=
  omap (fun r : Row => truthy_cell (r !! groupCol)) rows.

(** The rows whose group key is the non-empty key [k]. *)
Definition rows_of (groupCol : string) (k : string) (rows : list Row)
  : list Row :=
  filter (fun r : Row => or_str (r !! groupCol) "" = k ∧ k ≠ "") rows.

(** A whole number. *)
Definition is_int (q : num) : Prop := ∃ z : Z, q = Qc_of_Z z.

(** [m] is the first index of [arr] at which [f] is largest. *)
Definition first_max (f : FinalRow -> num) (arr : list FinalRow) (m : nat)
  : Prop :=
  ∃ x, arr !! m = Some x
    ∧ (∀ j y, arr !! j = Some y → f y ≤ f x)
    ∧ (∀ j y, arr !! j = Some y → (j < m)%nat → f y < f x).

(** The sales amounts scaled and floored, before the correction
    (lines 230-235). *)
Definition flooredSales (targetSales : num) (finalData : list FinalRow)
  : list num :=
  (fun r => floor (s_total r * salesRatio_of targetSales finalData))
    <$> finalData.

(** The sum of a list of numbers. *)
Definition sum_of (l : list num) : num := foldr Qcplus 0 l.

(** A field of [finalData[i]]. *)
Definition field_at (f : FinalRow -> num) (finalData : list FinalRow)
    (i : nat) : num :=
  from_option f 0 (finalData !! i).

(** What a pass from [before] to [after] took from, and gave to, the rows of
    [items], in the field [f]. *)
Definition subtracted (f : FinalRow -> num) (before after : list FinalRow)
    (items : list Item) : num :=
  sum_of ((fun it : Item => field_at f before it.2 - field_at f after it.2)
            <$> items).

Definition added (f : FinalRow -> num) (before after : list FinalRow)
    (items : list Item) : num :=
  sum_of ((fun it : Item => field_at f after it.2 - field_at f before it.2)
            <$> items).

(** The totals the donor loop accumulates over [items]. *)
Definition totalsOf (items : list Item) : Totals :=
  {| totalMoveQty := reduce_sum moveQty items;
     totalMoveSales := reduce_sum moveSales items;
     totalMoveTax := reduce_sum moveTax items |}.

(** Two rows that differ at most in the three sold fields. *)
Definition same_but_sold (r r' : FinalRow) : Prop :=
  r' = set_sold r (s_qty r') (s_total r') (s_tax_amt r').

(** [Math.max] on two arguments *)
Definition max (a b : num) : num := if bool_decide (a < b) then b else a.

(** The deficit ratio in the words of the specification:
    [min(1.0, |endingBalance| / max(quantity, 1))]. *)
Definition deficitRatio_spec (item : Item) : num :=
  min 1 (abs (ending item.1) / max (s_qty item.1) 1).

(** A bracket in which no redistribution is possible. *)
Definition idle (finalData : list FinalRow) (taxGrp : num) : Prop :=
  negItems finalData taxGrp = [] ∨ posItems finalData taxGrp = [].

(** [s] is a state of the redistribution started from [fd] in which the
    brackets of [done] have been processed: a row of a processed bracket is
    what processing that bracket alone on [fd] makes of it, a row of another
    bracket is as in [fd]. *)
Definition processed (fd : list FinalRow) (done : list num)
    (s : list FinalRow) : Prop :=
  length s = length fd
  ∧ ∀ j r, fd !! j = Some r →
      (∃ r', s !! j = Some r' ∧ s_tax_pct r' = s_tax_pct r)
      ∧ (s_tax_pct r ∉ done → s !! j = Some r)
      ∧ (s_tax_pct r ∈ done →
         ∀ fdg, taxGroups_each fd (s_tax_pct r) = Ok fdg → s !! j = fdg !! j).

(** [after] is a state of the redistribution started from [before]: the rows
    are the same but for their sold fields, and the rows of idle brackets are
    the same altogether. *)
Definition redistributed (before after : list FinalRow) : Prop :=
  length after = length before
  ∧ ∀ j r, before !! j = Some r →
      ∃ r', after !! j = Some r' ∧ same_but_sold r r'
            ∧ (idle before (s_tax_pct r) → r' = r).

(** ** Example ledgers *)

Definition inv_headers : list string := [COL_S_CODE; "تعداد"].

Definition inv_row (c q : string) : Row :=
  row_of [(COL_S_CODE, c); ("تعداد", q)].

Definition sales_headers : list string :=
  [COL_S_CODE; COL_S_QTY; COL_S_TAX_PCT; COL_S_TOTAL; COL_S_TAX_AMT].

Definition sales_row (c q pct tot tx : string) : Row :=
  row_of [(COL_S_CODE, c); (COL_S_QTY, q); (COL_S_TAX_PCT, pct);
          (COL_S_TOTAL, tot); (COL_S_TAX_AMT, tx)].

(** Five products.  P1 is oversold (15 available, 20 sold); P2 has headroom;
    P5 is oversold with a sold quantity below one; P3 was returned without
    stock and has sales rows of quantity zero; P4, the only product of the
    zero-rate bracket, is sold without any inventory. *)
Definition exA_open : ParsedCSV :=
  {| data := [inv_row "P1" "10"; inv_row "P2" "13"; inv_row "P5" "0.25"];
     headers := inv_headers |}.
Definition exA_purch : ParsedCSV :=
  {| data := [inv_row "P1" "5"]; headers := inv_headers |}.
Definition exA_ret : ParsedCSV :=
  {| data := [inv_row "P3" "2"]; headers := inv_headers |}.
Definition exA_sales : ParsedCSV :=
  {| data := [sales_row "P1" "20" "9" "1000" "90";
              sales_row "P2" "5" "9" "500" "45";
              sales_row "P3" "0" "9" "100" "9";
              sales_row "P4" "1" "0" "50" "0";
              sales_row "P5" "0.5" "9" "80" "8"];
     headers := sales_headers |}.

Definition exA_finalData : list FinalRow :=
  mergeData parseDecimal trimSpaces exA_open exA_purch exA_ret exA_sales.

(** The rows of P5 and P3 in [exA_finalData], at indices 2 and 3. *)
Definition exA_P5 : FinalRow :=
  {| code := "P5"; q_open := Q2Qc (1 # 4); q_purch := 0; q_ret := 0;
     available := Q2Qc (1 # 4); s_qty := Q2Qc (1 # 2);
     s_total := Qc_of_Z 80; s_tax_amt := Qc_of_Z 8; s_tax_pct := Qc_of_Z 9;
     ending := Q2Qc (-1 # 4);
     sales_final := 0; tax_final := 0; ending_final := 0 |}.

Definition exA_P3 : FinalRow :=
  {| code := "P3"; q_open := 0; q_purch := 0; q_ret := Qc_of_Z 2;
     available := Qc_of_Z (-2); s_qty := 0;
     s_total := Qc_of_Z 100; s_tax_amt := Qc_of_Z 9; s_tax_pct := Qc_of_Z 9;
     ending := Qc_of_Z (-2);
     sales_final := 0; tax_final := 0; ending_final := 0 |}.

Definition ex_row_P1_10 : Row := row_of [(COL_S_CODE, "P1"); (COL_S_QTY, "10")].
Definition ex_row_nocode : Row := row_of [(COL_S_QTY, "5")].
Definition ex_row_P1_bad : Row := row_of [(COL_S_CODE, "P1"); (COL_S_QTY, "abc")].

(** Ledgers without the expected columns: the inventory ledgers have the code
    column only, the sales ledger lacks the quantity, rate, amount and tax
    columns. *)
Definition exB_open : ParsedCSV :=
  {| data := [row_of [(COL_S_CODE, "P1")]]; headers := [COL_S_CODE] |}.
Definition exB_none : ParsedCSV :=
  {| data := []; headers := [COL_S_CODE] |}.
Definition exB_sales : ParsedCSV :=
  {| data := [row_of [(COL_S_CODE, "P1")]]; headers := [COL_S_CODE] |}.

(** A zero-rate product before a taxable product whose tax amount is 0. *)
Definition exC_none : ParsedCSV := {| data := []; headers := inv_headers |}.
Definition exC_sales : ParsedCSV :=
  {| data := [sales_row "P1" "1" "0" "100" "0";
              sales_row "P2" "1" "9" "100" "0"];
     headers := sales_headers |}.

(** Ledgers in which no row has a product code. *)
Definition exD_open : ParsedCSV :=
  {| data := [row_of [("تعداد", "5")]]; headers := inv_headers |}.
Definition exD_sales : ParsedCSV :=
  {| data := [row_of [(COL_S_QTY, "5"); (COL_S_TOTAL, "70")]];
     headers := sales_headers |}.

(** The row of P1 in [exA_finalData], at index 0. *)
Definition exA_P1 : FinalRow :=
  {| code := "P1"; q_open := Qc_of_Z 10; q_purch := Qc_of_Z 5; q_ret := 0;
     available := Qc_of_Z 15; s_qty := Qc_of_Z 20;
     s_total := Qc_of_Z 1000; s_tax_amt := Qc_of_Z 90;
     s_tax_pct := Qc_of_Z 9; ending := Qc_of_Z (-5);
     sales_final := 0; tax_final := 0; ending_final := 0 |}.

(** The report of the first example for the targets 2000 and 100, and its
    row for P1. *)
Definition exA_report : list ReportRow :=
  match processData parseDecimal trimSpaces exA_open exA_purch exA_ret
          exA_sales (Qc_of_Z 2000) (Qc_of_Z 100) with
  | Ok report => report
  | Throw _ => []
  end.

Definition exA_report_P1 : ReportRow :=
  {| r_code := "P1"; r_open := Qc_of_Z 10; r_purch := Qc_of_Z 5; r_ret := 0;
     r_qty := Qc_of_Z 15; r_sales := Qc_of_Z 867; r_tax := Qc_of_Z 44;
     r_ending := 0 |}.

(** An inventory ledger whose third header carries the first candidate name
    and whose second header, padded with blanks, the second one. *)
Definition exE_inv : ParsedCSV :=
  {| data := [];
     headers := [COL_S_CODE; " تعداد "; "تعداد واحد جز"] |}.

(** Two sales rows of P2 with different tax rates, after a row of P1. *)
Definition exE_pre : list Row := [sales_row "P1" "20" "9" "1000" "90"].
Definition exE_row : Row := sales_row "P2" "5" "9" "500" "45".
Definition exE_post : list Row := [sales_row "P2" "1" "20" "10" "2"].

(** P7 is in stock and was not sold. *)
Definition exF_open : ParsedCSV :=
  {| data := [inv_row "P1" "10"; inv_row "P2" "13"; inv_row "P7" "4"];
     headers := inv_headers |}.
Definition exF_sales : ParsedCSV :=
  {| data := [sales_row "P1" "20" "9" "1000" "90";
              sales_row "P2" "5" "9" "500" "45"];
     headers := sales_headers |}.
Definition exF_finalData : list FinalRow :=
  mergeData parseDecimal trimSpaces exF_open exC_none exC_none exF_sales.
Definition exF_P7 : FinalRow :=
  {| code := "P7"; q_open := Qc_of_Z 4; q_purch := 0; q_ret := 0;
     available := Qc_of_Z 4; s_qty := 0; s_total := 0; s_tax_amt := 0;
     s_tax_pct := 0; ending := Qc_of_Z 4;
     sales_final := 0; tax_final := 0; ending_final := 0 |}.

Definition exB_finalData : list FinalRow :=
  mergeData parseDecimal trimSpaces exB_open exB_none exB_none exB_sales.

(** * Properties *)

(** A closed decidable statement, settled by evaluation. *)
Ltac by_evaluation := apply (bool_decide_unpack _); vm_compute; exact I.

(** ** The error monad, [modify] and the ordered containers *)

Lemma bind_Ok {A B : Type} (f : A -> result B) (m : result A) (b : B) :
  m ≫= f = Ok b ↔ ∃ a, m = Ok a ∧ f a = Ok b.
Proof.
  destruct m as [a|e]; simpl.
  - split; [eauto | intros (a' & [= <-] & H); done].
  - split; [done | intros (a' & [=] & _)].
Qed.

Lemma foldlM_app {A B : Type} (f : B -> A -> result B) (l1 l2 : list A) (b : B) :
  foldlM f (l1 ++ l2) b = foldlM f l1 b ≫= foldlM f l2.
Proof.
  revert b. induction l1 as [|x l1 IH]; intros b; simpl; [done|].
  destruct (f b x) as [b'|e]; simpl; [apply IH | done].
Qed.

Lemma modify_Ok {A : Type} (i : nat) (f : A -> A) (l : list A) (x : A) :
  l !! i = Some x → modify i f l = Ok (<[i := f x]> l).
Proof. intros H. unfold modify. by rewrite H. Qed.

Lemma modify_Throw {A : Type} (i : nat) (f : A -> A) (l : list A) :
  l !! i = None → ∃ e, modify i f l = Throw e.
Proof. intros H. unfold modify. rewrite H. eauto. Qed.

Lemma truthy_true (s : string) : truthy s = true ↔ s ≠ "".
Proof.
  unfold truthy. destruct (String.eqb_spec s ""); simpl; split; congruence.
Qed.

Lemma truthy_false (s : string) : truthy s = false ↔ s = "".
Proof.
  unfold truthy. destruct (String.eqb_spec s ""); simpl; split; congruence.
Qed.

Lemma or_num_Some (q d : num) : q ≠ 0 → or_num (Some q) d = q.
Proof. intros H. unfold or_num. by rewrite bool_decide_eq_false_2. Qed.

Lemma or_num_0 (x : option num) : or_num (Some (or_num x 0)) 0 = or_num x 0.
Proof.
  destruct x as [q|]; simpl; repeat case_bool_decide; congruence.
Qed.

Lemma or_num_Some_0 (q : num) : or_num (Some q) 0 = q.
Proof. simpl. case_bool_decide; congruence. Qed.

Section MapFacts.
Context {V : Type}.
Implicit Types (m : JsMap V) (k : string) (v : V).

Lemma map_get_set_eq k v m : map_get k (map_set k v m) = Some v.
Proof.
  induction m as [|[k' v'] m IH]; simpl.
  - by rewrite String.eqb_refl.
  - destruct (String.eqb_spec k' k) as [->|Hne]; simpl.
    + by rewrite String.eqb_refl.
    + by destruct (String.eqb_spec k' k).
Qed.

Lemma map_get_set_ne k k' v m :
  k ≠ k' → map_get k' (map_set k v m) = map_get k' m.
Proof.
  intros Hne. induction m as [|[k0 v0] m IH]; simpl.
  - by destruct (String.eqb_spec k k').
  - destruct (String.eqb_spec k0 k) as [->|Hk0]; simpl.
    + by destruct (String.eqb_spec k k').
    + by rewrite IH.
Qed.

Lemma map_get_set k k' v m :
  map_get k' (map_set k v m) = if decide (k = k') then Some v else map_get k' m.
Proof.
  case_decide as H; [subst; apply map_get_set_eq | by apply map_get_set_ne].
Qed.

Lemma elem_of_map_keys k m : k ∈ map_keys m ↔ is_Some (map_get k m).
Proof.
  unfold map_keys. induction m as [|[k' v'] m IH]; simpl.
  - rewrite elem_of_nil. split; [done | by intros [? ?]].
  - rewrite elem_of_cons, IH.
    destruct (String.eqb_spec k' k) as [->|Hne]; [split; eauto|].
    split; [intros [?|?]; [congruence | done] | by right].
Qed.

Lemma map_keys_set k v m :
  map_keys (map_set k v m)
  = if map_has k m then map_keys m else map_keys m ++ [k].
Proof.
  unfold map_keys, map_has. induction m as [|[k' v'] m IH]; simpl; [done|].
  destruct (String.eqb_spec k' k) as [->|Hne]; [done|].
  rewrite fmap_cons, IH. by destruct (map_get k m).
Qed.

Lemma map_has_true k m : map_has k m = true ↔ k ∈ map_keys m.
Proof.
  rewrite elem_of_map_keys. unfold map_has.
  destruct (map_get k m); [split; eauto | split; [done | by intros [? ?] ] ].
Qed.

End MapFacts.

Section SetFacts.
Context {A : Type} `{EqDecision A}.
Implicit Types (xs acc : list A) (x : A).

Lemma fold_set_add_elem_of xs acc x :
  x ∈ fold_left set_add xs acc ↔ x ∈ acc ∨ x ∈ xs.
Proof.
  revert acc. induction xs as [|y xs IH]; intros acc; simpl.
  - rewrite elem_of_nil. tauto.
  - rewrite IH, elem_of_cons. unfold set_add. case_bool_decide as Hy.
    + split; [tauto|]. intros [?|[->|?]]; tauto.
    + rewrite elem_of_app, list_elem_of_singleton. tauto.
Qed.

Lemma fold_set_add_NoDup xs acc : NoDup acc → NoDup (fold_left set_add xs acc).
Proof.
  revert acc. induction xs as [|y xs IH]; intros acc Hacc; simpl; [done|].
  apply IH. unfold set_add. case_bool_decide as Hy; [done|].
  apply NoDup_app. split_and!; [done | | apply NoDup_singleton].
  intros z Hz. rewrite list_elem_of_singleton. congruence.
Qed.

Lemma elem_of_new_Set xs x : x ∈ new_Set xs ↔ x ∈ xs.
Proof.
  unfold new_Set. rewrite fold_set_add_elem_of, elem_of_nil. tauto.
Qed.

Lemma NoDup_new_Set xs : NoDup (new_Set xs).
Proof. apply fold_set_add_NoDup, NoDup_nil_2. Qed.

Lemma new_Set_nil xs : new_Set xs = [] ↔ xs = [].
Proof.
  split; [|by intros ->].
  destruct xs as [|x xs]; [done|]. intros H.
  assert (x ∈ new_Set (x :: xs)) as Hx by (apply elem_of_new_Set; left).
  rewrite H in Hx. by apply elem_of_nil in Hx.
Qed.

End SetFacts.

Lemma fold_left_rel {A B : Type} (R : B -> B -> Prop) (f : B -> A -> B)
    (l : list A) (b1 b2 : B) :
  (∀ x c1 c2, R c1 c2 → R (f c1 x) (f c2 x)) →
  R b1 b2 → R (fold_left f l b1) (fold_left f l b2).
Proof.
  intros Hf. revert b1 b2. induction l as [|x l IH]; intros b1 b2 HR; simpl;
    [done | by apply IH, Hf].
Qed.

Lemma fold_left_inv {A B : Type} (P : B -> Prop) (f : B -> A -> B)
    (l : list A) (b : B) :
  (∀ x c, P c → P (f c x)) → P b → P (fold_left f l b).
Proof.
  intros Hf Hb. apply (fold_left_rel (fun c _ => P c) f l b b); eauto.
Qed.

(** ** Aggregation *)

Section Aggregation.

Variable parseFloat : string -> option num.

Lemma group_sum_set (k k' : string) (v : num) (m : JsMap num) :
  group_sum k' (map_set k v m) = if decide (k = k') then v else group_sum k' m.
Proof.
  unfold group_sum. rewrite map_get_set.
  case_decide; [apply or_num_Some_0 | done].
Qed.

Lemma group_sum_groupBySum_row (groupCol : string) (sumCol : option string)
    (m : JsMap num) (row : Row) (k : string) :
  group_sum k (groupBySum_row parseFloat groupCol sumCol m row)
  = if decide (or_str (row !! groupCol) "" = k ∧ k ≠ "")
    then group_sum k m + or_num (parseFloatCell parseFloat (row !! prop sumCol)) 0
    else group_sum k m.
Proof.
  unfold groupBySum_row.
  destruct (truthy (or_str (row !! groupCol) "")) eqn:Hkey.
  - apply truthy_true in Hkey. rewrite group_sum_set.
    destruct (decide (or_str (row !! groupCol) "" = k)) as [<-|Hne].
    + by rewrite decide_True.
    + rewrite decide_False; [done | by intros [? _] ].
  - apply truthy_false in Hkey. case_decide as H; [|done].
    destruct H as [<- H]. done.
Qed.

Lemma groupBySum_row_skip (groupCol : string) (sumCol : option string)
    (m : JsMap num) (row : Row) :
  or_str (row !! groupCol) "" = "" →
  groupBySum_row parseFloat groupCol sumCol m row = m.
Proof. intros H. unfold groupBySum_row. by rewrite H. Qed.

Lemma groupBySum_no_empty_key (data : list Row) (groupCol : string)
    (sumCol : option string) :
  map_get "" (groupBySum parseFloat data groupCol sumCol) = None.
Proof.
  unfold groupBySum. apply fold_left_inv; [|done].
  intros row m Hm. unfold groupBySum_row.
  destruct (truthy (or_str (row !! groupCol) "")) eqn:Hkey; [|done].
  apply truthy_true in Hkey. by rewrite map_get_set_ne.
Qed.

Lemma groupBySum_row_keys (groupCol : string) (sumCol : option string)
    (row : Row) (m : JsMap num) (k : string) :
  k ∈ map_keys (groupBySum_row parseFloat groupCol sumCol m row)
  ↔ k ∈ map_keys m ∨ (k ≠ "" ∧ or_str (row !! groupCol) "" = k).
Proof.
  unfold groupBySum_row.
  destruct (truthy (or_str (row !! groupCol) "")) eqn:Hkey.
  - apply truthy_true in Hkey. rewrite map_keys_set.
    destruct (map_has _ m) eqn:Hhas.
    + apply map_has_true in Hhas. split; [by left|].
      intros [?|[_ <-] ]; done.
    + rewrite elem_of_app, list_elem_of_singleton. split.
      * intros [?| ->]; [by left | by right].
      * intros [?|[_ <-] ]; [by left | by right].
  - apply truthy_false in Hkey. split; [by left|].
    intros [?|[Hk Heq] ]; [done | congruence].
Qed.

(** The keys of an aggregate are the non-empty group keys of the rows. *)
Lemma groupBySum_keys_from (groupCol : string) (sumCol : option string)
    (data : list Row) (m : JsMap num) (k : string) :
  k ∈ map_keys (fold_left (groupBySum_row parseFloat groupCol sumCol) data m)
  ↔ k ∈ map_keys m
    ∨ (k ≠ "" ∧ ∃ row, row ∈ data ∧ or_str (row !! groupCol) "" = k).
Proof.
  revert m. induction data as [|row data IH]; intros m; simpl.
  - split; [by left|]. intros [?|(_ & row & Hrow & _)]; [done|].
    by apply elem_of_nil in Hrow.
  - rewrite IH, groupBySum_row_keys. split.
    + intros [[?|[? ?] ]|(? & r & Hr & ?)]; [by left | |].
      * right. split; [done|]. exists row. split; [by left | done].
      * right. split; [done|]. exists r. split; [by right | done].
    + intros [?|(? & r & Hr & Heq)]; [by left; left|].
      apply elem_of_cons in Hr as [->|Hr]; [by left; right|].
      right. eauto.
Qed.

Lemma groupBySum_keys (groupCol : string) (sumCol : option string)
    (data : list Row) (k : string) :
  k ∈ map_keys (groupBySum parseFloat data groupCol sumCol)
  ↔ k ≠ "" ∧ ∃ row, row ∈ data ∧ or_str (row !! groupCol) "" = k.
Proof.
  unfold groupBySum. rewrite groupBySum_keys_from. simpl.
  rewrite elem_of_nil. tauto.
Qed.

Lemma parseFloatCell_None (c : option string) :
  parseFloatCell parseFloat c = None
  ↔ c = None ∨ ∃ s, c = Some s ∧ parseFloat s = None.
Proof.
  destruct c as [s|]; simpl; [|by split; [left|] ].
  split; [by right; exists s | by intros [|(s' & [= <-] & ?)] ].
Qed.

(** The entry that line 153 reads was stored by line 151 or earlier. *)
Lemma salesAgg_entry_exists (c : string) (z : SalesAgg) (salesAgg : JsMap SalesAgg) :
  is_Some (map_get c (if negb (map_has c salesAgg)
                      then map_set c z salesAgg else salesAgg)).
Proof.
  unfold map_has. destruct (map_get c salesAgg) eqn:H; simpl.
  - by rewrite H.
  - by rewrite map_get_set_eq.
Qed.

Lemma sold_of_set (c k : string) (a : SalesAgg) (m : JsMap SalesAgg) :
  sold_of k (map_set c a m) = if decide (c = k) then a else sold_of k m.
Proof. unfold sold_of. rewrite map_get_set. by case_decide. Qed.

Lemma salesAgg_row_skip (st : JsMap SalesAgg * JsMap num) (row : Row) :
  or_str (row !! COL_S_CODE) "" = "" → salesAgg_row parseFloat st row = st.
Proof. intros H. unfold salesAgg_row. destruct st. by rewrite H. Qed.

(** What one sales row adds to the aggregate of a code. *)
Lemma sold_of_salesAgg_row (st : JsMap SalesAgg * JsMap num) (row : Row)
    (k : string) :
  let hit := bool_decide (or_str (row !! COL_S_CODE) "" = k ∧ k ≠ "") in
  let cell col := or_num (parseFloatCell parseFloat (row !! col)) 0 in
  let a := sold_of k (salesAgg_row parseFloat st row).1 in
  qty a = qty (sold_of k st.1) + (if hit then cell COL_S_QTY else 0)
  ∧ total a = total (sold_of k st.1) + (if hit then cell COL_S_TOTAL else 0)
  ∧ tax a = tax (sold_of k st.1) + (if hit then cell COL_S_TAX_AMT else 0).
Proof.
  destruct st as [salesAgg taxMap]. cbn zeta. unfold salesAgg_row.
  destruct (truthy (or_str (row !! COL_S_CODE) "")) eqn:Hkey; simpl.
  - apply truthy_true in Hkey.
    set (c := or_str (row !! COL_S_CODE) "") in *.
    unfold map_has.
    destruct (map_get c salesAgg) as [agg|] eqn:Hget; simpl.
    + rewrite Hget. rewrite sold_of_set.
      destruct (decide (c = k)) as [<-|Hne].
      * rewrite bool_decide_eq_true_2 by done. simpl.
        unfold sold_of. by rewrite Hget.
      * rewrite bool_decide_eq_false_2 by (by intros [? _]).
        by rewrite !Qcplus_0_r.
    + rewrite map_get_set_eq, !sold_of_set.
      destruct (decide (c = k)) as [<-|Hne].
      * rewrite bool_decide_eq_true_2 by done. simpl.
        unfold sold_of. by rewrite Hget.
      * rewrite bool_decide_eq_false_2 by (by intros [? _]).
        by rewrite !Qcplus_0_r.
  - apply truthy_false in Hkey.
    rewrite bool_decide_eq_false_2; [by rewrite !Qcplus_0_r|].
    intros [<- ?]. done.
Qed.

Lemma groupBySum_drop_row (data1 data2 : list Row) (row : Row)
    (groupCol : string) (sumCol : option string) :
  parseFloatCell parseFloat (row !! prop sumCol) = None →
  ∀ k, group_sum k (groupBySum parseFloat (data1 ++ row :: data2) groupCol sumCol)
       = group_sum k (groupBySum parseFloat (data1 ++ data2) groupCol sumCol).
Proof.
  intros Hval. unfold groupBySum. rewrite !fold_left_app. simpl.
  apply (fold_left_rel (fun m1 m2 => ∀ k, group_sum k m1 = group_sum k m2)).
  - intros x m1 m2 HR k. rewrite !group_sum_groupBySum_row.
    case_decide; by rewrite HR.
  - intros k. rewrite group_sum_groupBySum_row, Hval. simpl.
    case_decide; [apply Qcplus_0_r | done].
Qed.

Lemma aggregateSales_drop_row (data1 data2 : list Row) (row : Row)
    (hs : list string) (col : string) (f : SalesAgg -> num) :
  (col = COL_S_QTY ∧ f = qty) ∨ (col = COL_S_TOTAL ∧ f = total)
  ∨ (col = COL_S_TAX_AMT ∧ f = tax) →
  parseFloatCell parseFloat (row !! col) = None →
  ∀ c, f (sold_of c (aggregateSales parseFloat
                       {| data := data1 ++ row :: data2; headers := hs |}).1)
       = f (sold_of c (aggregateSales parseFloat
                         {| data := data1 ++ data2; headers := hs |}).1).
Proof.
  intros Hcol Hval. unfold aggregateSales. simpl. rewrite !fold_left_app. simpl.
  apply (fold_left_rel
           (fun st1 st2 => ∀ k, f (sold_of k st1.1) = f (sold_of k st2.1))).
  - intros x st1 st2 HR k.
    destruct (sold_of_salesAgg_row st1 x k) as (Hq1 & Ht1 & Hx1).
    destruct (sold_of_salesAgg_row st2 x k) as (Hq2 & Ht2 & Hx2).
    destruct Hcol as [[_ ->]|[[_ ->]|[_ ->] ] ]; congruence.
  - intros k.
    destruct (sold_of_salesAgg_row (fold_left (salesAgg_row parseFloat) data1 ([], []))
                row k) as (Hq & Ht & Hx).
    destruct Hcol as [[-> ->]|[[-> ->]|[-> ->] ] ];
      [rewrite Hq | rewrite Ht | rewrite Hx]; rewrite Hval; simpl;
      by destruct (bool_decide _); rewrite Qcplus_0_r.
Qed.

(** C9.  In aggregation a row whose group key coerces to the empty string is
    skipped entirely: the aggregate is the one of the ledger without that
    row, and no group is ever stored under the empty key.  A row whose value
    cell is absent or does not parse as a number adds exactly 0 to the sum of
    every group, in [groupBySum] and in the quantity column of the sales
    aggregation alike; both functions are total, so nothing aborts. *)
Theorem C9_aggregation_skips_and_zeroes
    (data1 data2 : list Row) (row_e row_v : Row)
    (groupCol : string) (sumCol : option string) (hs : list string) :
  or_str (row_e !! groupCol) "" = "" →
  or_str (row_e !! COL_S_CODE) "" = "" →
  (row_v !! prop sumCol = None
   ∨ ∃ s, row_v !! prop sumCol = Some s ∧ parseFloat s = None) →
  (row_v !! COL_S_QTY = None
   ∨ ∃ s, row_v !! COL_S_QTY = Some s ∧ parseFloat s = None) →
  groupBySum parseFloat (data1 ++ row_e :: data2) groupCol sumCol
    = groupBySum parseFloat (data1 ++ data2) groupCol sumCol
  ∧ aggregateSales parseFloat {| data := data1 ++ row_e :: data2; headers := hs |}
    = aggregateSales parseFloat {| data := data1 ++ data2; headers := hs |}
  ∧ map_get "" (groupBySum parseFloat (data1 ++ row_v :: data2) groupCol sumCol)
    = None
  ∧ (∀ k, group_sum k (groupBySum parseFloat (data1 ++ row_v :: data2)
                         groupCol sumCol)
          = group_sum k (groupBySum parseFloat (data1 ++ data2) groupCol sumCol))
  ∧ (∀ c, qty (sold_of c (aggregateSales parseFloat
                   {| data := data1 ++ row_v :: data2; headers := hs |}).1)
          = qty (sold_of c (aggregateSales parseFloat
                   {| data := data1 ++ data2; headers := hs |}).1)).
Proof.
  intros Hkey Hcode Hval Hqty.
  apply parseFloatCell_None in Hval. apply parseFloatCell_None in Hqty.
  split_and!.
  - unfold groupBySum. rewrite !fold_left_app. simpl.
    by rewrite groupBySum_row_skip.
  - unfold aggregateSales. simpl. rewrite !fold_left_app. simpl.
    by rewrite salesAgg_row_skip.
  - apply groupBySum_no_empty_key.
  - by apply groupBySum_drop_row.
  - apply (aggregateSales_drop_row _ _ _ _ COL_S_QTY qty); [by left | done].
Qed.

End Aggregation.

Lemma C9_aggregation_witness :
  groupBySum parseDecimal ([ex_row_P1_10] ++ ex_row_nocode :: [])
    COL_S_CODE (Some COL_S_QTY)
  = groupBySum parseDecimal ([ex_row_P1_10] ++ []) COL_S_CODE (Some COL_S_QTY)
  ∧ group_sum "P1" (groupBySum parseDecimal
                      ([ex_row_P1_10] ++ ex_row_P1_bad :: [])
                      COL_S_CODE (Some COL_S_QTY))
    = group_sum "P1" (groupBySum parseDecimal ([ex_row_P1_10] ++ [])
                        COL_S_CODE (Some COL_S_QTY)).
Proof.
  destruct (C9_aggregation_skips_and_zeroes parseDecimal [ex_row_P1_10] []
              ex_row_nocode ex_row_P1_bad COL_S_CODE (Some COL_S_QTY) [])
    as (Hskip & _ & _ & Hsum & _).
  - reflexivity.
  - reflexivity.
  - right. exists "abc". split; reflexivity.
  - right. exists "abc". split; reflexivity.
  - split; [exact Hskip | exact (Hsum "P1")].
Defined.

(** ** Redistribution of negative ending balances *)

Section Redistribution.

Implicit Types (fd s : list FinalRow) (it : Item) (items : list Item)
  (g : num) (t : Totals).

Lemma fold_left_plus {A : Type} (f : A -> num) (l : list A) (a : num) :
  fold_left (fun sum r => sum + f r) l a = a + sum_of (f <$> l).
Proof.
  revert a. induction l as [|x l IH]; intros a.
  - simpl. by rewrite Qcplus_0_r.
  - rewrite fmap_cons. cbn [fold_left sum_of foldr]. rewrite IH.
    unfold sum_of. ring.
Qed.

Lemma reduce_sum_sum_of {A : Type} (f : A -> num) (l : list A) :
  reduce_sum f l = sum_of (f <$> l).
Proof. unfold reduce_sum. rewrite fold_left_plus. ring. Qed.

(** *** Elements of [grpIndices], [negItems] and [posItems] *)

Lemma indexed_snd fd :
  (imap (fun i r => (r, i)) fd).*2 = seq 0 (length fd).
Proof.
  rewrite fmap_imap.
  rewrite <-(list_fmap_id (seq 0 (length fd))).
  apply (imap_seq_0 fd (fun j => j)).
Qed.

Lemma elem_of_indexed fd it :
  it ∈ imap (fun i r => (r, i)) fd ↔ fd !! it.2 = Some it.1.
Proof.
  rewrite elem_of_lookup_imap. destruct it as [r i]. simpl. split.
  - by intros (j & y & [= -> ->] & H).
  - intros H. by exists i, r.
Qed.

Lemma elem_of_grpIndices fd g it :
  it ∈ grpIndices fd g ↔ s_tax_pct it.1 = g ∧ fd !! it.2 = Some it.1.
Proof.
  unfold grpIndices. by rewrite list_elem_of_filter, elem_of_indexed.
Qed.

Lemma elem_of_negItems fd g it :
  it ∈ negItems fd g
  ↔ ending it.1 < 0 ∧ s_tax_pct it.1 = g ∧ fd !! it.2 = Some it.1.
Proof.
  unfold negItems. by rewrite list_elem_of_filter, elem_of_grpIndices.
Qed.

Lemma elem_of_posItems fd g it :
  it ∈ posItems fd g
  ↔ (0 < ending it.1 ∧ 0 < s_total it.1)
    ∧ s_tax_pct it.1 = g ∧ fd !! it.2 = Some it.1.
Proof.
  unfold posItems. by rewrite list_elem_of_filter, elem_of_grpIndices.
Qed.

Lemma grpIndices_NoDup fd g : NoDup (grpIndices fd g).*2.
Proof.
  apply sublist_NoDup with (seq 0 (length fd)); [apply NoDup_seq|].
  rewrite <-indexed_snd. apply fmap_sublist, sublist_filter.
Qed.

Lemma negItems_NoDup fd g : NoDup (negItems fd g).*2.
Proof.
  eapply sublist_NoDup; [apply (grpIndices_NoDup fd g)|].
  apply fmap_sublist, sublist_filter.
Qed.

Lemma posItems_NoDup fd g : NoDup (posItems fd g).*2.
Proof.
  eapply sublist_NoDup; [apply (grpIndices_NoDup fd g)|].
  apply fmap_sublist, sublist_filter.
Qed.

(** A row is a donor or a recipient, never both. *)
Lemma negItems_posItems_disjoint fd g it it' :
  it ∈ negItems fd g → it' ∈ posItems fd g → it.2 ≠ it'.2.
Proof.
  rewrite elem_of_negItems, elem_of_posItems.
  intros (Hneg & _ & H1) ((Hpos & _) & _ & H2) Heq.
  rewrite Heq, H2 in H1. injection H1 as H1. rewrite <-H1 in Hneg.
  apply (Qclt_not_le _ _ Hneg). by apply Qclt_le_weak.
Qed.

(** *** A loop of updates through distinct indices *)

Lemma foldlM_modify (upd : Item -> FinalRow -> FinalRow) items s :
  NoDup items.*2 →
  (∀ it, it ∈ items → is_Some (s !! it.2)) →
  ∃ s', foldlM (fun s it => modify it.2 (upd it) s) items s = Ok s'
    ∧ length s' = length s
    ∧ (∀ it, it ∈ items → s' !! it.2 = upd it <$> s !! it.2)
    ∧ (∀ j, j ∉ items.*2 → s' !! j = s !! j).
Proof.
  revert s. induction items as [|it items IH]; intros s Hnd Hin.
  - exists s. split_and!; [done | done | | done].
    intros it Hit. by apply elem_of_nil in Hit.
  - rewrite fmap_cons in Hnd. apply NoDup_cons in Hnd as [Hfresh Hnd].
    destruct (Hin it) as [x Hx]; [by left|].
    assert (it.2 < length s)%nat as Hlt by (by eapply lookup_lt_Some).
    destruct (IH (<[it.2 := upd it x]> s) Hnd) as (s' & Hrun & Hlen & Hhit & Hmiss).
    { intros it' Hit'. apply list_lookup_insert_is_Some, Hin. by right. }
    exists s'. split_and!.
    + simpl. by rewrite (modify_Ok _ _ _ x).
    + by rewrite Hlen, length_insert.
    + intros it' Hit'. apply elem_of_cons in Hit' as [->|Hit'].
      * rewrite Hmiss by done. rewrite list_lookup_insert_eq by done.
        by rewrite Hx.
      * rewrite Hhit by done. rewrite list_lookup_insert_ne; [done|].
        intros Heq. apply Hfresh. rewrite Heq.
        by apply (list_elem_of_fmap_2 snd).
    + intros j Hj. rewrite fmap_cons, not_elem_of_cons in Hj.
      destruct Hj as [Hne Hj]. rewrite Hmiss by done.
      by rewrite list_lookup_insert_ne.
Qed.

(** The donor loop: the updates of the rows and, beside them, the totals. *)
Lemma foldlM_negItems_each items t s :
  foldlM negItems_each items (t, s)
  = s' ← foldlM (fun s it => modify it.2 (subtractMove it) s) items s;
    mret ({| totalMoveQty := fold_left (fun a it => a + moveQty it) items
                               (totalMoveQty t);
             totalMoveSales := fold_left (fun a it => a + moveSales it) items
                                 (totalMoveSales t);
             totalMoveTax := fold_left (fun a it => a + moveTax it) items
                               (totalMoveTax t) |}, s').
Proof.
  revert t s. induction items as [|it items IH]; intros t s; simpl.
  - by destruct t.
  - cbn [foldlM].
    assert (negItems_each (t, s) it
            = finalData ← modify it.2 (subtractMove it) s;
              mret ({| totalMoveQty := totalMoveQty t + moveQty it;
                       totalMoveSales := totalMoveSales t + moveSales it;
                       totalMoveTax := totalMoveTax t + moveTax it |},
                    finalData)) as -> by done.
    destruct (modify it.2 (subtractMove it) s) as [s1|e]; simpl; [|done].
    by rewrite IH.
Qed.

(** *** One tax bracket *)

Lemma length_pos_iff {A : Type} (l : list A) : (0 < length l)%nat ↔ l ≠ [].
Proof. destruct l; simpl; split; (done || lia). Qed.

Lemma taxGroups_each_idle fd g :
  negItems fd g = [] ∨ posItems fd g = [] → taxGroups_each fd g = Ok fd.
Proof.
  intros H. unfold taxGroups_each. rewrite bool_decide_eq_false_2; [done|].
  rewrite !length_pos_iff. tauto.
Qed.

Lemma taxGroups_each_moves fd g :
  negItems fd g ≠ [] → posItems fd g ≠ [] →
  ∃ fd', taxGroups_each fd g = Ok fd'
    ∧ length fd' = length fd
    ∧ (∀ it, it ∈ negItems fd g → fd' !! it.2 = Some (subtractMove it it.1))
    ∧ (∀ it, it ∈ posItems fd g →
         fd' !! it.2
         = Some (addShare (totalsOf (negItems fd g))
                   (totalPosSales_of (posItems fd g)) it it.1))
    ∧ (∀ j, j ∉ (negItems fd g).*2 → j ∉ (posItems fd g).*2 →
         fd' !! j = fd !! j).
Proof.
  intros Hneg Hpos. unfold taxGroups_each.
  rewrite bool_decide_eq_true_2 by (by rewrite !length_pos_iff).
  rewrite foldlM_negItems_each.
  destruct (foldlM_modify subtractMove (negItems fd g) fd)
    as (s1 & Hrun1 & Hlen1 & Hhit1 & Hmiss1).
  { apply negItems_NoDup. }
  { intros it Hit. apply elem_of_negItems in Hit as (_ & _ & ->). eauto. }
  rewrite Hrun1. simpl.
  destruct (foldlM_modify
              (addShare (totalsOf (negItems fd g))
                 (totalPosSales_of (posItems fd g)))
              (posItems fd g) s1)
    as (s2 & Hrun2 & Hlen2 & Hhit2 & Hmiss2).
  { apply posItems_NoDup. }
  { intros it Hit. apply lookup_lt_is_Some. rewrite Hlen1.
    apply elem_of_posItems in Hit as (_ & _ & Hit).
    by eapply lookup_lt_Some. }
  exists s2. split_and!.
  - exact Hrun2.
  - by rewrite Hlen2.
  - intros it Hit. rewrite Hmiss2.
    + rewrite Hhit1 by done.
      apply elem_of_negItems in Hit as (_ & _ & ->). done.
    + intros Hin. apply list_elem_of_fmap in Hin as (it' & Heq & Hit').
      by apply (negItems_posItems_disjoint fd g it it').
  - intros it Hit. rewrite Hhit2 by done. rewrite Hmiss1.
    + apply elem_of_posItems in Hit as (_ & _ & ->). done.
    + intros Hin. apply list_elem_of_fmap in Hin as (it' & Heq & Hit').
      by apply (negItems_posItems_disjoint fd g it' it).
  - intros j Hj1 Hj2. by rewrite Hmiss2, Hmiss1.
Qed.

(** *** Conservation within a bracket *)

Lemma sum_of_ext {A : Type} (f h : A -> num) (l : list A) :
  (∀ x, x ∈ l → f x = h x) → sum_of (f <$> l) = sum_of (h <$> l).
Proof.
  induction l as [|x l IH]; intros H; [done|].
  rewrite !fmap_cons. cbn [sum_of foldr].
  rewrite (H x) by (by left). unfold sum_of in IH. rewrite IH; [done|].
  intros y Hy. apply H. by right.
Qed.

Lemma sum_of_zero {A : Type} (l : list A) :
  sum_of ((fun _ => 0) <$> l) = 0.
Proof.
  induction l as [|x l IH]; [done|].
  rewrite fmap_cons. cbn [sum_of foldr]. unfold sum_of in IH. rewrite IH. ring.
Qed.

Lemma sum_of_scale {A : Type} (f : A -> num) (c : num) (l : list A) :
  sum_of ((fun x => f x * c) <$> l) = sum_of (f <$> l) * c.
Proof.
  induction l as [|x l IH]; [simpl; ring|].
  rewrite !fmap_cons. cbn [sum_of foldr]. unfold sum_of in IH. rewrite IH. ring.
Qed.

Lemma sum_of_pos {A : Type} (f : A -> num) (l : list A) :
  l ≠ [] → (∀ x, x ∈ l → 0 < f x) → 0 < sum_of (f <$> l).
Proof.
  induction l as [|x l IH]; intros Hne H; [done|].
  rewrite fmap_cons. cbn [sum_of foldr].
  destruct l as [|y l].
  - simpl. rewrite Qcplus_0_r. apply H. by left.
  - apply Qcplus_pos_pos; [apply H; by left|].
    apply IH; [done|]. intros z Hz. apply H. by right.
Qed.

(** [totalPosSales] is positive, so the weights are well defined. *)
Lemma totalPosSales_pos fd g :
  posItems fd g ≠ [] → 0 < totalPosSales_of (posItems fd g).
Proof.
  intros Hne. unfold totalPosSales_of.
  change (0 < reduce_sum (fun it : Item => s_total it.1) (posItems fd g)).
  rewrite reduce_sum_sum_of. apply sum_of_pos; [done|].
  intros it Hit. by apply elem_of_posItems in Hit as ((_ & ?) & _).
Qed.

Lemma field_at_Some (f : FinalRow -> num) fd (i : nat) (r : FinalRow) :
  fd !! i = Some r → field_at f fd i = f r.
Proof. intros H. unfold field_at. by rewrite H. Qed.

Lemma conservation_field (f : FinalRow -> num) (mv : Item -> num)
    (tot : Totals -> num) fd g fd' :
  (∀ it r, f (subtractMove it r) = f r - mv it) →
  (∀ t S it r, f (addShare t S it r) = f r + s_total it.1 / S * tot t) →
  (∀ items, tot (totalsOf items) = reduce_sum mv items) →
  taxGroups_each fd g = Ok fd' →
  subtracted f fd fd' (negItems fd g) = added f fd fd' (posItems fd g).
Proof.
  intros Hsub Hadd Htot Hrun. unfold subtracted, added.
  destruct (decide (negItems fd g = [] ∨ posItems fd g = [])) as [Hidle|Hmv].
  - rewrite taxGroups_each_idle in Hrun by done. injection Hrun as <-.
    rewrite (sum_of_ext _ (fun _ => 0)) by (intros; ring).
    rewrite (sum_of_ext _ (fun _ => 0) (posItems fd g)) by (intros; ring).
    by rewrite !sum_of_zero.
  - assert (negItems fd g ≠ [] ∧ posItems fd g ≠ []) as [Hneg Hpos] by tauto.
    destruct (taxGroups_each_moves fd g Hneg Hpos)
      as (fd2 & Hrun2 & _ & Hdon & Hrec & _).
    rewrite Hrun in Hrun2. injection Hrun2 as <-.
    pose proof (totalPosSales_pos fd g Hpos) as HS.
    set (S := totalPosSales_of (posItems fd g)) in *.
    set (T := totalsOf (negItems fd g)) in *.
    rewrite (sum_of_ext _ mv).
    2:{ intros it Hit.
        rewrite (field_at_Some f fd' _ _ (Hdon it Hit)), Hsub.
        apply elem_of_negItems in Hit as (_ & _ & Hit).
        rewrite (field_at_Some f fd _ _ Hit). ring. }
    rewrite (sum_of_ext _ (fun it : Item => s_total it.1 * (/ S * tot T))
               (posItems fd g)).
    2:{ intros it Hit.
        rewrite (field_at_Some f fd' _ _ (Hrec it Hit)), Hadd.
        apply elem_of_posItems in Hit as (_ & _ & Hit).
        rewrite (field_at_Some f fd _ _ Hit). unfold Qcdiv. ring. }
    rewrite sum_of_scale.
    assert (sum_of ((fun it : Item => s_total it.1) <$> posItems fd g) = S) as ->.
    { symmetry. apply (reduce_sum_sum_of (fun it : Item => s_total it.1)). }
    unfold T. rewrite Htot, reduce_sum_sum_of.
    assert (S ≠ 0) as HS0.
    { intros H0. rewrite H0 in HS. by apply Qclt_not_eq in HS. }
    field. done.
Qed.

(** Every bracket is processed without an exception. *)
Lemma taxGroups_each_total fd g : ∃ fd', taxGroups_each fd g = Ok fd'.
Proof.
  destruct (decide (negItems fd g = [] ∨ posItems fd g = [])) as [Hidle|Hmv].
  - exists fd. by apply taxGroups_each_idle.
  - assert (negItems fd g ≠ [] ∧ posItems fd g ≠ []) as [Hneg Hpos] by tauto.
    destruct (taxGroups_each_moves fd g Hneg Hpos) as (fd' & ? & _). eauto.
Qed.

(** C2.  Whatever the state of [finalData] when a tax bracket is processed,
    the bracket is processed without an exception and what the pass takes
    from the donor rows equals what it gives to the recipient rows, in
    quantity, in sales amount and in tax. *)
Theorem C2_bracket_conservation fd g :
  ∃ fd', taxGroups_each fd g = Ok fd'
    ∧ subtracted s_qty fd fd' (negItems fd g)
      = added s_qty fd fd' (posItems fd g)
    ∧ subtracted s_total fd fd' (negItems fd g)
      = added s_total fd fd' (posItems fd g)
    ∧ subtracted s_tax_amt fd fd' (negItems fd g)
      = added s_tax_amt fd fd' (posItems fd g).
Proof.
  destruct (taxGroups_each_total fd g) as [fd' Hrun].
  exists fd'. split_and!; [done | | |].
  - by apply (conservation_field s_qty moveQty totalMoveQty).
  - by apply (conservation_field s_total moveSales totalMoveSales).
  - by apply (conservation_field s_tax_amt moveTax totalMoveTax).
Qed.

(** *** The whole pass *)

Lemma same_but_sold_refl (r : FinalRow) : same_but_sold r r.
Proof. by destruct r. Qed.

Lemma same_but_sold_trans (r1 r2 r3 : FinalRow) :
  same_but_sold r1 r2 → same_but_sold r2 r3 → same_but_sold r1 r3.
Proof. unfold same_but_sold. intros -> ->. done. Qed.

Lemma same_but_sold_set (r : FinalRow) (q x y : num) :
  same_but_sold r (set_sold r q x y).
Proof. done. Qed.

Lemma same_but_sold_tax_pct (r r' : FinalRow) :
  same_but_sold r r' → s_tax_pct r' = s_tax_pct r.
Proof. by intros ->. Qed.

(** What processing one bracket does to each row. *)
Lemma taxGroups_each_frame fd g fd' :
  taxGroups_each fd g = Ok fd' →
  length fd' = length fd
  ∧ ∀ j r, fd !! j = Some r →
      ∃ r', fd' !! j = Some r' ∧ same_but_sold r r'
            ∧ (s_tax_pct r ≠ g → r' = r).
Proof.
  intros Hrun.
  destruct (decide (negItems fd g = [] ∨ posItems fd g = [])) as [Hidle|Hmv].
  - rewrite taxGroups_each_idle in Hrun by done. injection Hrun as <-.
    split; [done|]. intros j r Hj. exists r.
    split_and!; [done | apply same_but_sold_refl | done].
  - assert (negItems fd g ≠ [] ∧ posItems fd g ≠ []) as [Hneg Hpos] by tauto.
    destruct (taxGroups_each_moves fd g Hneg Hpos)
      as (fd2 & Hrun2 & Hlen & Hdon & Hrec & Hother).
    rewrite Hrun in Hrun2. injection Hrun2 as <-.
    split; [done|]. intros j r Hj.
    destruct (decide (j ∈ (negItems fd g).*2)) as [Hin|Hnin].
    { apply list_elem_of_fmap in Hin as (it & -> & Hit).
      pose proof Hit as Hit'.
      apply elem_of_negItems in Hit' as (_ & Hg & Hlk).
      rewrite Hj in Hlk. injection Hlk as ->.
      exists (subtractMove it it.1). split_and!; [by apply Hdon | done | done]. }
    destruct (decide (j ∈ (posItems fd g).*2)) as [Hin|Hnin'].
    { apply list_elem_of_fmap in Hin as (it & -> & Hit).
      pose proof Hit as Hit'.
      apply elem_of_posItems in Hit' as (_ & Hg & Hlk).
      rewrite Hj in Hlk. injection Hlk as ->.
      eexists. split_and!; [by apply Hrec | done | done]. }
    exists r. rewrite Hother by done.
    split_and!; [done | apply same_but_sold_refl | done].
Qed.

Lemma filter_indexed_ext (P : Item -> Prop) `{∀ it, Decision (P it)}
    (xs ys : list FinalRow) (k : nat) :
  Forall2 (fun x y => ∀ i, (P (x, i) ↔ P (y, i)) ∧ (P (y, i) → x = y)) xs ys →
  filter P (imap (fun i r => (r, (k + i)%nat)) xs)
  = filter P (imap (fun i r => (r, (k + i)%nat)) ys).
Proof.
  intros HF. revert k. induction HF as [|x y xs ys Hxy HF IH]; intros k; [done|].
  rewrite !imap_cons.
  assert (∀ l : list FinalRow,
            imap ((fun i r => (r, (k + i)%nat)) ∘ S) l
            = imap (fun i r => (r, (S k + i)%nat)) l) as Hshift.
  { intros l. apply imap_ext. intros i r _. simpl. f_equal. lia. }
  rewrite !Hshift, !filter_cons.
  destruct (Hxy (k + 0)%nat) as [Hiff Heq].
  destruct (decide (P (x, (k + 0)%nat))) as [Hx|Hx];
    destruct (decide (P (y, (k + 0)%nat))) as [Hy|Hy]; try tauto.
  - rewrite (Heq Hy). f_equal. apply IH.
  - apply IH.
Qed.

Lemma grpIndices_ext fd s g :
  length s = length fd →
  (∀ j r, fd !! j = Some r →
     ∃ r', s !! j = Some r' ∧ s_tax_pct r' = s_tax_pct r
           ∧ (s_tax_pct r = g → r' = r)) →
  grpIndices s g = grpIndices fd g.
Proof.
  intros Hlen H. unfold grpIndices.
  apply (filter_indexed_ext (fun it : Item => s_tax_pct it.1 = g) s fd 0).
  apply Forall2_same_length_lookup_2; [done|].
  intros i x y Hx Hy j. simpl.
  destruct (H i y Hy) as (r' & Hr' & Htax & Hsame).
  rewrite Hx in Hr'. injection Hr' as <-.
  split; [by rewrite Htax | done].
Qed.

Lemma redistributed_refl fd : redistributed fd fd.
Proof.
  split; [done|]. intros j r Hj. exists r.
  split_and!; [done | apply same_but_sold_refl | done].
Qed.

Lemma redistributed_step fd s g s' :
  redistributed fd s → taxGroups_each s g = Ok s' → redistributed fd s'.
Proof.
  intros [Hlen Hinv] Hrun.
  assert (idle fd g → grpIndices s g = grpIndices fd g) as Hgrp.
  { intros Hidle. apply grpIndices_ext; [done|].
    intros j r Hj. destruct (Hinv j r Hj) as (r' & Hr' & Hsame & Hfix).
    exists r'. split_and!; [done | by apply same_but_sold_tax_pct |].
    intros <-. by apply Hfix. }
  destruct (decide (idle fd g)) as [Hidle|Hbusy].
  - assert (idle s g) as Hidle'.
    { unfold idle, negItems, posItems in *. by rewrite (Hgrp Hidle). }
    rewrite taxGroups_each_idle in Hrun by done. injection Hrun as <-.
    by split.
  - apply taxGroups_each_frame in Hrun as [Hlen' Hframe].
    split; [congruence|]. intros j r Hj.
    destruct (Hinv j r Hj) as (r' & Hr' & Hsame & Hfix).
    destruct (Hframe j r' Hr') as (r'' & Hr'' & Hsame' & Hfix').
    exists r''. split_and!; [done | by eapply same_but_sold_trans |].
    intros Hidle. rewrite <-(Hfix Hidle). apply Hfix'.
    rewrite (same_but_sold_tax_pct _ _ Hsame). by intros <-.
Qed.

Lemma foldlM_taxGroups_each (gs : list num) fd s :
  redistributed fd s →
  ∃ s', foldlM taxGroups_each gs s = Ok s' ∧ redistributed fd s'.
Proof.
  revert s. induction gs as [|g gs IH]; intros s Hs; simpl; [by eauto|].
  destruct (taxGroups_each_total s g) as [s1 Hrun]. rewrite Hrun. simpl.
  apply IH. by eapply redistributed_step.
Qed.

(** The pass never throws. *)
Lemma distributeNegative_Ok fd :
  ∃ fd', distributeNegative fd = Ok fd' ∧ redistributed fd fd'.
Proof. apply foldlM_taxGroups_each, redistributed_refl. Qed.

(** C8.  The redistribution pass ends without an exception, and every row of
    a tax bracket whose donor partition or whose recipient partition is empty
    is after the pass what it was before it. *)
Theorem C8_idle_bracket_untouched fd g :
  negItems fd g = [] ∨ posItems fd g = [] →
  ∃ fd', distributeNegative fd = Ok fd'
    ∧ ∀ i r, fd !! i = Some r → s_tax_pct r = g → fd' !! i = Some r.
Proof.
  intros Hidle.
  destruct (distributeNegative_Ok fd) as (fd' & Hrun & _ & Hinv).
  exists fd'. split; [done|]. intros i r Hi <-.
  destruct (Hinv i r Hi) as (r' & Hr' & _ & Hfix).
  by rewrite Hr', (Hfix Hidle).
Qed.

(** *** The fraction a donor gives away *)

Lemma deficitRatio_unfold it :
  deficitRatio it
  = min 1 (abs (ending it.1)
           / (if bool_decide (s_qty it.1 = 0) then 1 else s_qty it.1)).
Proof. done. Qed.

Lemma donor_after fd g it :
  it ∈ negItems fd g → posItems fd g ≠ [] →
  ∃ fd', taxGroups_each fd g = Ok fd'
    ∧ fd' !! it.2 = Some (subtractMove it it.1).
Proof.
  intros Hit Hpos.
  assert (negItems fd g ≠ []) as Hneg.
  { intros H0. rewrite H0 in Hit. by apply elem_of_nil in Hit. }
  destruct (taxGroups_each_moves fd g Hneg Hpos) as (fd' & Hrun & _ & Hdon & _).
  exists fd'. split; [done | by apply Hdon].
Qed.

(** C3 (amended).  A donor of a bracket that has a recipient gives away the
    fraction [min(1, |ending| / d)] of its sold quantity, sales amount and
    tax, where the denominator [d] is the sold quantity unless that is zero,
    and 1 when it is zero (a truthiness test).  This is the ratio
    [min(1, |ending| / max(quantity, 1))] when the sold quantity is zero or at
    least one. *)
Theorem C3_donor_fraction fd g it :
  it ∈ negItems fd g → posItems fd g ≠ [] →
  let d := if bool_decide (s_qty it.1 = 0) then 1 else s_qty it.1 in
  let ratio := min 1 (abs (ending it.1) / d) in
  (∃ fd' r', taxGroups_each fd g = Ok fd' ∧ fd' !! it.2 = Some r'
     ∧ s_qty r' = s_qty it.1 - s_qty it.1 * ratio
     ∧ s_total r' = s_total it.1 - s_total it.1 * ratio
     ∧ s_tax_amt r' = s_tax_amt it.1 - s_tax_amt it.1 * ratio)
  ∧ (s_qty it.1 = 0 ∨ 1 ≤ s_qty it.1 → ratio = deficitRatio_spec it).
Proof.
  intros Hit Hpos d ratio. split.
  - destruct (donor_after fd g it Hit Hpos) as (fd' & Hrun & Hlk).
    exists fd', (subtractMove it it.1). by split_and!.
  - unfold ratio, d, deficitRatio_spec, max. intros [H0|H1].
    + rewrite H0. by rewrite bool_decide_eq_true_2.
    + rewrite bool_decide_eq_false_2.
      * rewrite (bool_decide_eq_false_2 (s_qty it.1 < 1)); [done|].
        by apply Qcle_not_lt.
      * intros H0. rewrite H0 in H1. by apply (Qcle_not_lt _ _ H1).
Qed.

(** C7 (amended).  A donor whose sold quantity is zero, in a bracket that has
    a recipient, moves no quantity: [moveQty] is 0 and its quantity stays 0.
    Its sales amount and its tax are reduced by the fraction
    [min(1, |ending|)], which is what it adds to the totals moved. *)
Theorem C7_zero_quantity_donor fd g it :
  it ∈ negItems fd g → posItems fd g ≠ [] → s_qty it.1 = 0 →
  let ratio := min 1 (abs (ending it.1)) in
  moveQty it = 0
  ∧ moveSales it = s_total it.1 * ratio
  ∧ moveTax it = s_tax_amt it.1 * ratio
  ∧ ∃ fd' r', taxGroups_each fd g = Ok fd' ∧ fd' !! it.2 = Some r'
      ∧ s_qty r' = s_qty it.1
      ∧ s_total r' = s_total it.1 - s_total it.1 * ratio
      ∧ s_tax_amt r' = s_tax_amt it.1 - s_tax_amt it.1 * ratio.
Proof.
  intros Hit Hpos Hq ratio.
  assert (deficitRatio it = ratio) as Hr.
  { rewrite deficitRatio_unfold, Hq. rewrite bool_decide_eq_true_2 by done.
    unfold ratio. f_equal. apply (right_id 1 Qcdiv). }
  assert (moveQty it = 0) as Hmq.
  { unfold moveQty. rewrite Hq. ring. }
  split_and!; [done | unfold moveSales; by rewrite Hr
              | unfold moveTax; by rewrite Hr |].
  destruct (donor_after fd g it Hit Hpos) as (fd' & Hrun & Hlk).
  exists fd', (subtractMove it it.1). split_and!; [done | done | | |]; simpl.
  - rewrite Hmq. ring.
  - unfold moveSales. by rewrite Hr.
  - unfold moveTax. by rewrite Hr.
Qed.

End Redistribution.

Lemma C3_counterexample :
  (exA_P5, 2%nat) ∈ negItems exA_finalData (Qc_of_Z 9)
  ∧ deficitRatio (exA_P5, 2%nat) = Q2Qc (1 # 2)
  ∧ deficitRatio_spec (exA_P5, 2%nat) = Q2Qc (1 # 4)
  ∧ ∃ fd', taxGroups_each exA_finalData (Qc_of_Z 9) = Ok fd'
      ∧ field_at s_qty fd' 2
        ≠ s_qty exA_P5 - s_qty exA_P5 * deficitRatio_spec (exA_P5, 2%nat).
Proof.
  split_and!; [by_evaluation | by_evaluation | by_evaluation |].
  eexists. split; [vm_compute; reflexivity | by_evaluation].
Qed.

Lemma C3_donor_fraction_witness :
  ∃ fd' r', taxGroups_each exA_finalData (Qc_of_Z 9) = Ok fd'
    ∧ fd' !! 2%nat = Some r'
    ∧ s_qty r' = Q2Qc (1 # 4).
Proof.
  destruct (C3_donor_fraction exA_finalData (Qc_of_Z 9) (exA_P5, 2%nat))
    as [(fd' & r' & Hrun & Hlk & Hq & _) _].
  - by_evaluation.
  - by_evaluation.
  - exists fd', r'. split_and!; [done | done |]. rewrite Hq. by_evaluation.
Defined.

Lemma C7_counterexample :
  (exA_P3, 3%nat) ∈ negItems exA_finalData (Qc_of_Z 9)
  ∧ s_qty exA_P3 = 0
  ∧ moveSales (exA_P3, 3%nat) = Qc_of_Z 100
  ∧ ∃ fd', taxGroups_each exA_finalData (Qc_of_Z 9) = Ok fd'
      ∧ field_at s_total exA_finalData 3 = Qc_of_Z 100
      ∧ field_at s_total fd' 3 = 0
      ∧ field_at s_tax_amt exA_finalData 3 = Qc_of_Z 9
      ∧ field_at s_tax_amt fd' 3 = 0.
Proof.
  split_and!; [by_evaluation | by_evaluation | by_evaluation |].
  eexists. split; [vm_compute; reflexivity |].
  split_and!; by_evaluation.
Qed.

Lemma C7_zero_quantity_donor_witness :
  moveQty (exA_P3, 3%nat) = 0
  ∧ ∃ fd' r', taxGroups_each exA_finalData (Qc_of_Z 9) = Ok fd'
      ∧ fd' !! 3%nat = Some r' ∧ s_qty r' = 0.
Proof.
  destruct (C7_zero_quantity_donor exA_finalData (Qc_of_Z 9) (exA_P3, 3%nat))
    as (Hmq & _ & _ & fd' & r' & Hrun & Hlk & Hq & _).
  - by_evaluation.
  - by_evaluation.
  - by_evaluation.
  - split; [exact Hmq|]. exists fd', r'. split_and!; [exact Hrun | exact Hlk | exact Hq].
Defined.

Lemma C8_idle_bracket_witness :
  ∃ fd', distributeNegative exA_finalData = Ok fd'
    ∧ ∀ i r, exA_finalData !! i = Some r → s_tax_pct r = 0 →
        fd' !! i = Some r.
Proof.
  apply (C8_idle_bracket_untouched exA_finalData 0).
  right. by_evaluation.
Defined.

(** ** Target balancing *)

Section Balancing.

Implicit Types (fd arr : list FinalRow) (f : FinalRow -> num).

(** *** The index of the largest value *)

Lemma foldlM_maxIdx_each f arr (l : list (nat * FinalRow)) (m : nat) :
  (m < length arr)%nat →
  (∀ ir, ir ∈ l → (ir.1 < length arr)%nat) →
  ∃ m', foldlM (maxIdx_each f arr) l m = Ok m' ∧ (m' < length arr)%nat.
Proof.
  revert m. induction l as [|ir l IH]; intros m Hm Hl; [simpl; by eauto|].
  cbn [foldlM]. destruct (lookup_lt_is_Some_2 arr m Hm) as [x Hx].
  assert (maxIdx_each f arr m ir
          = Ok (if bool_decide (f x < f ir.2) then ir.1 else m)) as ->.
  { unfold maxIdx_each. by rewrite Hx. }
  simpl. apply IH.
  - case_bool_decide; [apply Hl; by left | done].
  - intros ir' Hir'. apply Hl. by right.
Qed.

Lemma maxIdx_of_nil f : maxIdx_of f [] = Ok 0%nat.
Proof. done. Qed.

Lemma maxIdx_of_lt f arr :
  arr ≠ [] → ∃ m, maxIdx_of f arr = Ok m ∧ (m < length arr)%nat.
Proof.
  intros Hne. apply foldlM_maxIdx_each.
  - by apply length_pos_iff.
  - intros ir Hir. apply elem_of_lookup_imap in Hir as (i & r & -> & Hi).
    simpl. by eapply lookup_lt_Some.
Qed.

(** *** Sums and updates through an index *)

Lemma sum_of_insert f arr (i : nat) (x y : FinalRow) :
  arr !! i = Some x →
  sum_of (f <$> <[i := y]> arr) = sum_of (f <$> arr) - f x + f y.
Proof.
  revert i. induction arr as [|z arr IH]; intros i Hi; [done|].
  destruct i as [|i].
  - injection Hi as ->. cbn [list_insert insert]. rewrite !fmap_cons.
    cbn [sum_of foldr]. ring.
  - change (<[S i := y]> (z :: arr)) with (z :: <[i := y]> arr).
    rewrite !fmap_cons. cbn [sum_of foldr].
    change (arr !! i = Some x) in Hi. specialize (IH i Hi).
    unfold sum_of in IH. rewrite IH. ring.
Qed.

Lemma modify_preserves {A B : Type} (h : A -> B) (upd : A -> A) (i : nat)
    (l l' : list A) :
  (∀ x, h (upd x) = h x) → modify i upd l = Ok l' → h <$> l' = h <$> l.
Proof.
  intros Hh. unfold modify. destruct (l !! i) as [x|] eqn:Hx; [|done].
  intros [= <-]. rewrite list_fmap_insert, Hh.
  apply list_insert_id. by rewrite list_lookup_fmap, Hx.
Qed.

Lemma fmap_preserves {A B : Type} (h : A -> B) (upd : A -> A) (l : list A) :
  (∀ x, h (upd x) = h x) → h <$> (upd <$> l) = h <$> l.
Proof.
  intros Hh. rewrite <-list_fmap_compose. apply list_fmap_ext.
  intros i x _. apply Hh.
Qed.

(** *** The sales pass *)

Lemma correction_sum f (set : num -> FinalRow -> FinalRow) arr (target : num) :
  (∀ v r, f (set v r) = v) →
  arr ≠ [] →
  ∃ arr', (maxIdx ← maxIdx_of f arr;
           modify maxIdx (fun r => set (f r + (target - reduce_sum f arr)) r)
             arr) = Ok arr'
    ∧ reduce_sum f arr' = target.
Proof.
  intros Hset Hne.
  destruct (maxIdx_of_lt f arr Hne) as (m & Hm & Hlt).
  destruct (lookup_lt_is_Some_2 arr m Hlt) as [x Hx].
  rewrite Hm. simpl. rewrite (modify_Ok _ _ _ x Hx).
  eexists. split; [done|].
  rewrite !reduce_sum_sum_of, (sum_of_insert f arr m x _ Hx), Hset. ring.
Qed.

Lemma salesTargeting_nonempty (targetSales : num) fd :
  fd ≠ [] →
  ∃ fd', salesTargeting targetSales fd = Ok fd'
    ∧ reduce_sum sales_final fd' = targetSales.
Proof.
  intros Hne. unfold salesTargeting.
  set (fd1 := _ <$> fd).
  assert (fd1 ≠ []) as Hne1.
  { unfold fd1. by destruct fd. }
  case_bool_decide as Hdiff.
  - by apply (correction_sum sales_final set_sales_final fd1 targetSales).
  - exists fd1. split; [done|].
    rewrite <-(Qcplus_0_r (reduce_sum _ _)), <-Hdiff. ring.
Qed.

Lemma salesTargeting_nil (targetSales : num) :
  salesTargeting targetSales []
  = if bool_decide (targetSales ≠ 0)
    then Throw (TypeError "Cannot read properties of undefined")
    else Ok [].
Proof.
  unfold salesTargeting. simpl. unfold reduce_sum. simpl.
  assert (targetSales - 0 = targetSales) as -> by ring.
  by case_bool_decide.
Qed.

Lemma salesTargeting_preserves {B : Type} (h : FinalRow -> B)
    (targetSales : num) fd fd' :
  (∀ v r, h (set_sales_final v r) = h r) →
  salesTargeting targetSales fd = Ok fd' → h <$> fd' = h <$> fd.
Proof.
  intros Hh. unfold salesTargeting.
  set (fd1 := _ <$> fd).
  assert (h <$> fd1 = h <$> fd) as Hfd1.
  { unfold fd1. apply fmap_preserves. intros r. apply Hh. }
  case_bool_decide as Hdiff.
  - intros Hrun. apply bind_Ok in Hrun as (m & _ & Hrun).
    rewrite <-Hfd1. eapply modify_preserves; [|exact Hrun].
    intros r. apply Hh.
  - by intros [= <-].
Qed.

(** *** The tax pass *)

Lemma taxableItems_nonempty fd :
  taxableItems_of fd ≠ [] ↔ ∃ r, r ∈ fd ∧ 0 < s_tax_pct r.
Proof.
  unfold taxableItems_of. split.
  - destruct (filter _ fd) as [|r l] eqn:Hf; [done|]. intros _.
    assert (r ∈ filter (fun r => 0 < s_tax_pct r) fd) as Hr
      by (rewrite Hf; by left).
    apply list_elem_of_filter in Hr as [? ?]. eauto.
  - intros (r & Hr & Hpos) H0.
    assert (r ∈ filter (fun r => 0 < s_tax_pct r) fd) as Hr'
      by (by apply list_elem_of_filter).
    rewrite H0 in Hr'. by apply elem_of_nil in Hr'.
Qed.

(** The tax pass never throws; with a taxable row it reaches the target. *)
Lemma taxTargeting_Ok (targetTax : num) fd :
  ∃ fd', taxTargeting targetTax fd = Ok fd'
    ∧ (taxableItems_of fd ≠ [] → reduce_sum tax_final fd' = targetTax).
Proof.
  unfold taxTargeting.
  set (fd1 := _ <$> fd).
  case_bool_decide as Hdiff.
  - destruct Hdiff as [Hdiff Hlen]. apply length_pos_iff in Hlen.
    assert (fd1 ≠ []) as Hne1.
    { unfold fd1. destruct fd; [|done].
      by apply taxableItems_nonempty in Hlen as (r & Hr%elem_of_nil & _). }
    destruct (correction_sum tax_final set_tax_final fd1 targetTax)
      as (fd' & Hrun & Hsum); [done | done |].
    exists fd'. by split.
  - exists fd1. split; [done|]. intros Htaxable.
    destruct (decide (targetTax - reduce_sum tax_final fd1 = 0)) as [H0|H0].
    + rewrite <-(Qcplus_0_r (reduce_sum _ _)), <-H0. ring.
    + destruct Hdiff. split; [done | by apply length_pos_iff].
Qed.

Lemma taxTargeting_preserves {B : Type} (h : FinalRow -> B)
    (targetTax : num) fd fd' :
  (∀ v r, h (set_tax_final v r) = h r) →
  taxTargeting targetTax fd = Ok fd' → h <$> fd' = h <$> fd.
Proof.
  intros Hh. unfold taxTargeting.
  set (fd1 := _ <$> fd).
  assert (h <$> fd1 = h <$> fd) as Hfd1.
  { unfold fd1. apply fmap_preserves. intros r. case_bool_decide; apply Hh. }
  case_bool_decide as Hdiff.
  - intros Hrun. apply bind_Ok in Hrun as (m & _ & Hrun).
    rewrite <-Hfd1. eapply modify_preserves; [|exact Hrun].
    intros r. apply Hh.
  - by intros [= <-].
Qed.

(** *** The redistribution pass and the report step keep the other fields *)

Lemma redistributed_preserves {B : Type} (h : FinalRow -> B) fd fd' :
  (∀ r q x y, h (set_sold r q x y) = h r) →
  redistributed fd fd' → h <$> fd' = h <$> fd.
Proof.
  intros Hh [Hlen Hinv]. apply list_eq. intros j.
  rewrite !list_lookup_fmap.
  destruct (fd !! j) as [r|] eqn:Hj.
  - destruct (Hinv j r Hj) as (r' & -> & Hsame & _). simpl.
    rewrite Hsame. by rewrite Hh.
  - apply lookup_ge_None in Hj. rewrite <-Hlen in Hj.
    apply lookup_ge_None in Hj. by rewrite Hj.
Qed.

End Balancing.

(** ** The whole run *)

Section Pipeline.

Variable parseFloat : string -> option num.
Variable trim : string -> string.

Implicit Types (dfOpen dfPurch dfRet dfSales df : ParsedCSV)
  (targetSales targetTax : num) (c : string).

(** *** The universal set of product codes *)

Lemma or_str_code (cell : option string) c :
  or_str cell "" = c ∧ c ≠ "" ↔ cell = Some c ∧ c ≠ "".
Proof.
  destruct cell as [s|]; simpl.
  - destruct (truthy s) eqn:Hs.
    + split; [by intros [-> ?] | by intros [[= ->] ?] ].
    + apply truthy_false in Hs as ->.
      split; [by intros [<- ?] | by intros [[= <-] ?] ].
  - split; [by intros [<- ?] | by intros [? ?] ].
Qed.

Lemma elem_of_sales_codes df c : c ∈ sales_codes df ↔ has_code df c.
Proof.
  unfold sales_codes, has_code. rewrite list_elem_of_omap. split.
  - intros (row & Hrow & Hc). unfold truthy_cell in Hc.
    destruct (row !! COL_S_CODE) as [s|] eqn:Hs; [|done].
    destruct (truthy s) eqn:Ht; [|done]. injection Hc as ->.
    apply truthy_true in Ht. eauto.
  - intros (Hne & row & Hrow & Hc). exists row. split; [done|].
    rewrite Hc. simpl. apply truthy_true in Hne. by rewrite Hne.
Qed.

Lemma elem_of_groupBySum_codes df (sumCol : option string) c :
  c ∈ map_keys (groupBySum parseFloat (data df) COL_S_CODE sumCol)
  ↔ has_code df c.
Proof.
  rewrite groupBySum_keys. unfold has_code. split.
  - intros (Hne & row & Hrow & Hc). split; [done|]. exists row.
    split; [done|]. by apply or_str_code.
  - intros (Hne & row & Hrow & Hc). split; [done|]. exists row.
    split; [done|]. by apply or_str_code.
Qed.

Lemma code_mergeData dfOpen dfPurch dfRet dfSales :
  code <$> mergeData parseFloat trim dfOpen dfPurch dfRet dfSales
  = allCodes_of
      (groupBySum parseFloat (data dfOpen) COL_S_CODE (getQtyCol trim dfOpen))
      (groupBySum parseFloat (data dfPurch) COL_S_CODE (getQtyCol trim dfPurch))
      (groupBySum parseFloat (data dfRet) COL_S_CODE (getQtyCol trim dfRet))
      dfSales.
Proof.
  unfold mergeData. destruct (aggregateSales parseFloat dfSales) as [sa tm].
  rewrite <-list_fmap_compose.
  etrans; [|apply list_fmap_id]. by apply list_fmap_ext.
Qed.

Lemma elem_of_mergeData_codes dfOpen dfPurch dfRet dfSales c :
  c ∈ code <$> mergeData parseFloat trim dfOpen dfPurch dfRet dfSales
  ↔ has_code dfOpen c ∨ has_code dfPurch c ∨ has_code dfRet c
    ∨ has_code dfSales c.
Proof.
  rewrite code_mergeData. unfold allCodes_of.
  rewrite elem_of_new_Set, !elem_of_app, !elem_of_groupBySum_codes,
    elem_of_sales_codes. tauto.
Qed.

Lemma NoDup_mergeData_codes dfOpen dfPurch dfRet dfSales :
  NoDup (code <$> mergeData parseFloat trim dfOpen dfPurch dfRet dfSales).
Proof. rewrite code_mergeData. apply NoDup_new_Set. Qed.

(** *** The stages after the merge *)

Lemma processData_stages dfOpen dfPurch dfRet dfSales targetSales targetTax :
  ∃ fd1,
    distributeNegative (mergeData parseFloat trim dfOpen dfPurch dfRet dfSales)
    = Ok fd1
    ∧ redistributed (mergeData parseFloat trim dfOpen dfPurch dfRet dfSales) fd1
    ∧ processData parseFloat trim dfOpen dfPurch dfRet dfSales
        targetSales targetTax
      = (finalData2 ← salesTargeting targetSales fd1;
         finalData3 ← taxTargeting targetTax finalData2;
         mret (reportData_of (finalEnding finalData3))).
Proof.
  destruct (distributeNegative_Ok
              (mergeData parseFloat trim dfOpen dfPurch dfRet dfSales))
    as (fd1 & Hrun & Hred).
  exists fd1. split_and!; [done | done |].
  unfold processData. by rewrite Hrun.
Qed.

Lemma report_fields (fd : list FinalRow) :
  r_code <$> reportData_of (finalEnding fd) = code <$> fd
  ∧ r_sales <$> reportData_of (finalEnding fd) = sales_final <$> fd
  ∧ r_tax <$> reportData_of (finalEnding fd) = tax_final <$> fd.
Proof.
  unfold reportData_of, finalEnding.
  split_and!; rewrite <-!list_fmap_compose; by apply list_fmap_ext.
Qed.

(** The run ends with a report as soon as there is one product code. *)
Lemma processData_Ok dfOpen dfPurch dfRet dfSales targetSales targetTax :
  mergeData parseFloat trim dfOpen dfPurch dfRet dfSales ≠ [] →
  ∃ fd1 fd2 fd3,
    distributeNegative (mergeData parseFloat trim dfOpen dfPurch dfRet dfSales)
    = Ok fd1
    ∧ redistributed (mergeData parseFloat trim dfOpen dfPurch dfRet dfSales) fd1
    ∧ salesTargeting targetSales fd1 = Ok fd2
    ∧ reduce_sum sales_final fd2 = targetSales
    ∧ taxTargeting targetTax fd2 = Ok fd3
    ∧ (taxableItems_of fd2 ≠ [] → reduce_sum tax_final fd3 = targetTax)
    ∧ processData parseFloat trim dfOpen dfPurch dfRet dfSales
        targetSales targetTax
      = Ok (reportData_of (finalEnding fd3)).
Proof.
  intros Hne.
  destruct (processData_stages dfOpen dfPurch dfRet dfSales targetSales targetTax)
    as (fd1 & Hrun1 & Hred & Hproc).
  assert (fd1 ≠ []) as Hne1.
  { destruct Hred as [Hlen _]. intros ->. simpl in Hlen.
    by destruct (mergeData parseFloat trim dfOpen dfPurch dfRet dfSales). }
  destruct (salesTargeting_nonempty targetSales fd1 Hne1) as (fd2 & Hrun2 & Hsum2).
  destruct (taxTargeting_Ok targetTax fd2) as (fd3 & Hrun3 & Hsum3).
  exists fd1, fd2, fd3. split_and!; try done.
  rewrite Hproc, Hrun2. simpl. by rewrite Hrun3.
Qed.

(** C1.  When the sales amounts after redistribution have a positive total
    and some row has a positive tax rate, the run ends with a report in which
    the balanced sales amounts add up to [targetSales] and the balanced tax
    amounts add up to [targetTax]. *)
Theorem C1_targets_hit dfOpen dfPurch dfRet dfSales targetSales targetTax
    (fd1 : list FinalRow) :
  distributeNegative (mergeData parseFloat trim dfOpen dfPurch dfRet dfSales)
  = Ok fd1 →
  0 < reduce_sum s_total fd1 →
  (∃ r, r ∈ fd1 ∧ 0 < s_tax_pct r) →
  ∃ report,
    processData parseFloat trim dfOpen dfPurch dfRet dfSales
      targetSales targetTax = Ok report
    ∧ sum_of (r_sales <$> report) = targetSales
    ∧ sum_of (r_tax <$> report) = targetTax.
Proof.
  intros Hrun1 Htotal (r & Hr & Hrate).
  assert (mergeData parseFloat trim dfOpen dfPurch dfRet dfSales ≠ []) as Hne.
  { intros H0. rewrite H0 in Hrun1. injection Hrun1 as <-.
    by apply elem_of_nil in Hr. }
  destruct (processData_Ok dfOpen dfPurch dfRet dfSales targetSales targetTax Hne)
    as (fd1' & fd2 & fd3 & Hrun1' & _ & Hrun2 & Hsum2 & Hrun3 & Hsum3 & Hproc).
  rewrite Hrun1 in Hrun1'. injection Hrun1' as <-.
  exists (reportData_of (finalEnding fd3)).
  destruct (report_fields fd3) as (_ & -> & ->).
  split_and!; [done | |].
  - rewrite (taxTargeting_preserves sales_final targetTax fd2 fd3) by done.
    by rewrite <-reduce_sum_sum_of.
  - rewrite <-reduce_sum_sum_of. apply Hsum3. apply taxableItems_nonempty.
    assert (s_tax_pct r ∈ s_tax_pct <$> fd2) as Hin.
    { rewrite (salesTargeting_preserves s_tax_pct targetSales fd1 fd2) by done.
      by apply list_elem_of_fmap_2. }
    apply list_elem_of_fmap in Hin as (r2 & Heq & Hr2).
    exists r2. split; [done | by rewrite <-Heq].
Qed.

(** C5 (amended).  The run checks no schema.  Whatever the headers of the
    ledgers and whatever cells their rows have, it ends with a report as soon
    as one row of one ledger has a non-empty product code; the report has one
    row for each code. *)
Theorem C5_no_schema_check dfOpen dfPurch dfRet dfSales targetSales targetTax :
  (∃ c, has_code dfOpen c ∨ has_code dfPurch c ∨ has_code dfRet c
        ∨ has_code dfSales c) →
  ∃ report,
    processData parseFloat trim dfOpen dfPurch dfRet dfSales
      targetSales targetTax = Ok report
    ∧ report ≠ [].
Proof.
  intros (c & Hc).
  apply elem_of_mergeData_codes in Hc.
  assert (mergeData parseFloat trim dfOpen dfPurch dfRet dfSales ≠ []) as Hne.
  { intros H0. rewrite H0 in Hc. by apply elem_of_nil in Hc. }
  destruct (processData_Ok dfOpen dfPurch dfRet dfSales targetSales targetTax Hne)
    as (fd1 & fd2 & fd3 & _ & Hred & Hrun2 & _ & Hrun3 & _ & Hproc).
  exists (reportData_of (finalEnding fd3)). split; [done|].
  destruct (report_fields fd3) as (Hcode & _ & _). intros H0.
  rewrite H0 in Hcode. simpl in Hcode.
  rewrite (taxTargeting_preserves code targetTax fd2 fd3) in Hcode by done.
  rewrite (salesTargeting_preserves code targetSales fd1 fd2) in Hcode by done.
  rewrite (redistributed_preserves code _ fd1) in Hcode by done.
  rewrite <-Hcode in Hc. by apply elem_of_nil in Hc.
Qed.

(** C6.  The product codes of the report are the non-empty product codes of
    the rows of the four ledgers, each one once. *)
Theorem C6_report_codes dfOpen dfPurch dfRet dfSales targetSales targetTax
    (report : list ReportRow) :
  processData parseFloat trim dfOpen dfPurch dfRet dfSales
    targetSales targetTax = Ok report →
  NoDup (r_code <$> report)
  ∧ ∀ c, c ∈ r_code <$> report
         ↔ has_code dfOpen c ∨ has_code dfPurch c ∨ has_code dfRet c
           ∨ has_code dfSales c.
Proof.
  intros Hrun.
  destruct (processData_stages dfOpen dfPurch dfRet dfSales targetSales targetTax)
    as (fd1 & _ & Hred & Hproc).
  rewrite Hproc in Hrun.
  apply bind_Ok in Hrun as (fd2 & Hrun2 & Hrun).
  apply bind_Ok in Hrun as (fd3 & Hrun3 & Hrun).
  injection Hrun as <-.
  destruct (report_fields fd3) as (-> & _ & _).
  rewrite (taxTargeting_preserves code targetTax fd2 fd3) by done.
  rewrite (salesTargeting_preserves code targetSales fd1 fd2) by done.
  rewrite (redistributed_preserves code _ fd1) by done.
  split; [apply NoDup_mergeData_codes|].
  intros c. apply elem_of_mergeData_codes.
Qed.

(** C10.  When no row of any ledger has a non-empty product code and
    [targetSales] is not zero, the correction of the sales pass reads
    [finalData[0]] of an empty array and the run ends with that exception
    instead of a report.  The tax pass on the same empty array does not
    throw: its correction is guarded by the number of taxable rows. *)
Theorem C10_empty_code_set_throws dfOpen dfPurch dfRet dfSales
    targetSales targetTax :
  (∀ c, ¬ (has_code dfOpen c ∨ has_code dfPurch c ∨ has_code dfRet c
           ∨ has_code dfSales c)) →
  targetSales ≠ 0 →
  processData parseFloat trim dfOpen dfPurch dfRet dfSales
    targetSales targetTax
  = Throw (TypeError "Cannot read properties of undefined")
  ∧ salesTargeting targetSales []
    = Throw (TypeError "Cannot read properties of undefined")
  ∧ taxTargeting targetTax [] = Ok [].
Proof.
  intros Hnone Htarget.
  assert (mergeData parseFloat trim dfOpen dfPurch dfRet dfSales = []) as Hnil.
  { destruct (mergeData parseFloat trim dfOpen dfPurch dfRet dfSales)
      as [|r l] eqn:Hm; [done|].
    destruct (Hnone (code r)). apply elem_of_mergeData_codes.
    rewrite Hm. by left. }
  assert (salesTargeting targetSales []
          = Throw (TypeError "Cannot read properties of undefined")) as Hsales.
  { rewrite salesTargeting_nil. by rewrite bool_decide_eq_true_2. }
  split_and!; [| done |].
  - unfold processData. rewrite Hnil.
    change (distributeNegative []) with (Ok (@nil FinalRow)). simpl.
    by rewrite Hsales.
  - unfold taxTargeting. simpl. rewrite bool_decide_eq_false_2; [done|].
    intros [_ H]. lia.
Qed.

End Pipeline.

Lemma C1_targets_hit_witness :
  ∃ report,
    processData parseDecimal trimSpaces exA_open exA_purch exA_ret exA_sales
      (Qc_of_Z 2000) (Qc_of_Z 100) = Ok report
    ∧ sum_of (r_sales <$> report) = Qc_of_Z 2000
    ∧ sum_of (r_tax <$> report) = Qc_of_Z 100.
Proof.
  eapply (C1_targets_hit parseDecimal trimSpaces exA_open exA_purch exA_ret
            exA_sales).
  - vm_compute. reflexivity.
  - by_evaluation.
  - eexists. split; [left | by_evaluation].
Defined.

Lemma C4_zero_rate_row_receives_correction :
  processData parseDecimal trimSpaces exC_none exC_none exC_none exC_sales
    (Qc_of_Z 200) (Qc_of_Z 100)
  = Ok [ {| r_code := "P1"; r_open := 0; r_purch := 0; r_ret := 0;
            r_qty := 1; r_sales := Qc_of_Z 100; r_tax := Qc_of_Z 100;
            r_ending := Qc_of_Z (-1) |};
         {| r_code := "P2"; r_open := 0; r_purch := 0; r_ret := 0;
            r_qty := 1; r_sales := Qc_of_Z 100; r_tax := 0;
            r_ending := Qc_of_Z (-1) |} ].
Proof. by_evaluation. Qed.

Lemma C5_counterexample :
  (length (headers exB_open) < 2)%nat
  ∧ (COL_S_QTY ∉ headers exB_sales)
  ∧ (COL_S_TAX_PCT ∉ headers exB_sales)
  ∧ (COL_S_TOTAL ∉ headers exB_sales)
  ∧ (COL_S_TAX_AMT ∉ headers exB_sales)
  ∧ processData parseDecimal trimSpaces exB_open exB_none exB_none exB_sales
      (Qc_of_Z 100) (Qc_of_Z 10)
    = Ok [ {| r_code := "P1"; r_open := 0; r_purch := 0; r_ret := 0;
              r_qty := 0; r_sales := Qc_of_Z 100; r_tax := 0;
              r_ending := 0 |} ].
Proof. split_and!; by_evaluation. Qed.

Lemma C5_no_schema_check_witness :
  ∃ report,
    processData parseDecimal trimSpaces exB_open exB_none exB_none exB_sales
      (Qc_of_Z 100) (Qc_of_Z 10) = Ok report
    ∧ report ≠ [].
Proof.
  apply (C5_no_schema_check parseDecimal trimSpaces).
  exists "P1". left. split; [done|].
  exists (row_of [(COL_S_CODE, "P1")]). split; [left | reflexivity].
Defined.

Lemma C6_report_codes_witness :
  ∃ report,
    processData parseDecimal trimSpaces exA_open exA_purch exA_ret exA_sales
      (Qc_of_Z 2000) (Qc_of_Z 100) = Ok report
    ∧ NoDup (r_code <$> report)
    ∧ ∀ c, c ∈ r_code <$> report
           ↔ has_code exA_open c ∨ has_code exA_purch c ∨ has_code exA_ret c
             ∨ has_code exA_sales c.
Proof.
  eexists. split; [vm_compute; reflexivity|].
  apply (C6_report_codes parseDecimal trimSpaces exA_open exA_purch exA_ret
           exA_sales (Qc_of_Z 2000) (Qc_of_Z 100)).
  by_evaluation.
Defined.

Lemma C10_empty_code_set_witness :
  processData parseDecimal trimSpaces exD_open exC_none exC_none exD_sales
    (Qc_of_Z 100) (Qc_of_Z 10)
  = Throw (TypeError "Cannot read properties of undefined").
Proof.
  apply (C10_empty_code_set_throws parseDecimal trimSpaces exD_open exC_none
           exC_none exD_sales (Qc_of_Z 100) (Qc_of_Z 10)).
  - intros c [H|[H|[H|H] ] ]; destruct H as (_ & row & Hrow & Hc).
    + apply list_elem_of_singleton in Hrow as ->. vm_compute in Hc. done.
    + by apply elem_of_nil in Hrow.
    + by apply elem_of_nil in Hrow.
    + apply list_elem_of_singleton in Hrow as ->. vm_compute in Hc. done.
  - by_evaluation.
Defined.

(** * Further properties of the code *)

(** ** The quantity column of an inventory ledger *)

Section ColumnResolver.

Variable trim : string -> string.

Implicit Types (hs pre post ps : list string) (h p : string).

Lemma find_no_match hs p :
  (∀ h, h ∈ hs → trim h ≠ p) →
  List.find (fun h => String.eqb (trim h) p) hs = None.
Proof.
  induction hs as [|h hs IH]; intros Hno; simpl; [done|].
  destruct (String.eqb_spec (trim h) p) as [Heq|Hne].
  - destruct (Hno h); [by left | done].
  - apply IH. intros h' Hh'. apply Hno. by right.
Qed.

Lemma find_first_match pre h post p :
  (∀ h', h' ∈ pre → trim h' ≠ p) → trim h = p →
  List.find (fun h => String.eqb (trim h) p) (pre ++ h :: post) = Some h.
Proof.
  intros Hpre Hh. induction pre as [|h0 pre IH]; simpl.
  - by rewrite Hh, String.eqb_refl.
  - destruct (String.eqb_spec (trim h0) p) as [Heq|Hne].
    + destruct (Hpre h0); [by left | done].
    + apply IH. intros h' Hh'. apply Hpre. by right.
Qed.

Lemma getQtyCol_for_skip hs ps1 ps2 :
  (∀ h p, h ∈ hs → p ∈ ps1 → trim h ≠ p) →
  getQtyCol_for trim hs (ps1 ++ ps2) = getQtyCol_for trim hs ps2.
Proof.
  induction ps1 as [|p ps1 IH]; intros Hno; simpl; [done|].
  rewrite find_no_match.
  - apply IH. intros h q Hh Hq. apply Hno; [done | by right].
  - intros h Hh. apply Hno; [done | by left].
Qed.

(** X2.  With no header named as a candidate the quantity column is the second
    header, and [undefined] when the ledger has fewer than two columns. *)
Theorem getQtyCol_fallback (df : ParsedCSV) :
  (∀ h p, h ∈ headers df → p ∈ possible → trim h ≠ p) →
  getQtyCol trim df = headers df !! 1%nat
  ∧ ((length (headers df) < 2)%nat → getQtyCol trim df = None).
Proof.
  intros Hno. unfold getQtyCol.
  rewrite <-(app_nil_r possible), (getQtyCol_for_skip _ possible []) by done.
  simpl. split; [done|]. intros Hlen. apply lookup_ge_None. lia.
Qed.

(** X1.  The candidates are tried in their order: the column is the first header
    carrying the earliest candidate name that any header carries, whatever
    the position of that header. *)
Theorem getQtyCol_priority (df : ParsedCSV) pre h post ps1 p ps2 :
  headers df = pre ++ h :: post →
  possible = ps1 ++ p :: ps2 →
  (∀ h' q, h' ∈ headers df → q ∈ ps1 → trim h' ≠ q) →
  (∀ h', h' ∈ pre → trim h' ≠ p) →
  trim h = p → h ≠ "" →
  getQtyCol trim df = Some h.
Proof.
  intros Hhs Hps Hearlier Hpre Hh Hne. unfold getQtyCol.
  rewrite Hps, getQtyCol_for_skip by done. simpl.
  rewrite Hhs, find_first_match by done.
  apply truthy_true in Hne. by rewrite Hne.
Qed.

(** X3.  The column, when there is one, is one of the headers of the ledger. *)
Theorem getQtyCol_is_header (df : ParsedCSV) h :
  getQtyCol trim df = Some h → h ∈ headers df.
Proof.
  unfold getQtyCol. generalize possible as ps.
  induction ps as [|p ps IH]; simpl.
  - apply list_elem_of_lookup_2.
  - destruct (List.find _ (headers df)) as [found|] eqn:Hfind; [|done].
    destruct (truthy found); [|done]. intros [= <-].
    apply List.find_some in Hfind as [Hin _]. by apply list_elem_of_In.
Qed.

End ColumnResolver.

(** ** The aggregates *)

Section Aggregates.

Variable parseFloat : string -> option num.

Implicit Types (rows : list Row) (row : Row) (k c : string).

Lemma truthy_cell_or_str (cell : option string) :
  truthy_cell cell
  = if truthy (or_str cell "") then Some (or_str cell "") else None.
Proof.
  destruct cell as [s|]; simpl; [|done].
  destruct (truthy s) eqn:Hs; [by rewrite Hs | done].
Qed.

Lemma fold_groupBySum_row_sum (groupCol : string) (sumCol : option string)
    rows (m : JsMap num) k :
  group_sum k (fold_left (groupBySum_row parseFloat groupCol sumCol) rows m)
  = group_sum k m
    + sum_of ((fun r : Row =>
                 or_num (parseFloatCell parseFloat (r !! prop sumCol)) 0)
              <$> rows_of groupCol k rows).
Proof.
  revert m. unfold rows_of.
  induction rows as [|row rows IH]; intros m; simpl.
  - by rewrite Qcplus_0_r.
  - rewrite IH, group_sum_groupBySum_row, filter_cons.
    destruct (decide (or_str (row !! groupCol) "" = k ∧ k ≠ "")).
    + rewrite fmap_cons. cbn [sum_of foldr]. unfold sum_of. ring.
    + done.
Qed.

(** X4.  The sum stored for a key is the sum of what the value cells of the rows
    of that key parse to, taking 0 for an absent or unparsable cell. *)
Theorem groupBySum_sum (groupCol : string) (sumCol : option string) rows k :
  group_sum k (groupBySum parseFloat rows groupCol sumCol)
  = sum_of ((fun r : Row =>
               or_num (parseFloatCell parseFloat (r !! prop sumCol)) 0)
            <$> rows_of groupCol k rows).
Proof.
  unfold groupBySum. rewrite fold_groupBySum_row_sum.
  unfold group_sum. simpl. ring.
Qed.

Lemma fold_groupBySum_row_keys (groupCol : string) (sumCol : option string)
    rows (m : JsMap num) :
  map_keys (fold_left (groupBySum_row parseFloat groupCol sumCol) rows m)
  = fold_left set_add (keys_of groupCol rows) (map_keys m).
Proof.
  revert m. unfold keys_of.
  induction rows as [|row rows IH]; intros m; simpl; [done|].
  rewrite IH. unfold groupBySum_row. rewrite truthy_cell_or_str.
  destruct (truthy (or_str (row !! groupCol) "")) eqn:Hkey; simpl; [|done].
  f_equal. rewrite map_keys_set. unfold set_add.
  destruct (map_has _ m) eqn:Hhas.
  - apply map_has_true in Hhas. by rewrite bool_decide_eq_true_2.
  - rewrite bool_decide_eq_false_2; [done|]. intros Hin.
    apply map_has_true in Hin. congruence.
Qed.

(** X5.  The keys of an aggregate are the distinct non-empty group keys of the
    rows, in the order in which the rows first show them. *)
Theorem groupBySum_keys_in_order (groupCol : string) (sumCol : option string)
    rows :
  map_keys (groupBySum parseFloat rows groupCol sumCol)
  = new_Set (keys_of groupCol rows).
Proof. unfold groupBySum. by rewrite fold_groupBySum_row_keys. Qed.

(** *** The sales aggregation *)

Lemma taxMap_salesAgg_row (st : JsMap SalesAgg * JsMap num) row c :
  map_get c (salesAgg_row parseFloat st row).2
  = match map_get c st.2 with
    | Some v => Some v
    | None =>
        if bool_decide (or_str (row !! COL_S_CODE) "" = c ∧ c ≠ "")
        then Some (or_num (parseFloatCell parseFloat (row !! COL_S_TAX_PCT)) 0)
        else None
    end.
Proof.
  destruct st as [salesAgg taxMap]. unfold salesAgg_row. simpl.
  destruct (truthy (or_str (row !! COL_S_CODE) "")) eqn:Hkey; simpl.
  - apply truthy_true in Hkey.
    set (k := or_str (row !! COL_S_CODE) "") in *.
    unfold map_has.
    destruct (decide (k = c)) as [->|Hne].
    + destruct (map_get c taxMap) as [v|] eqn:Hget; simpl.
      * by rewrite Hget.
      * rewrite map_get_set_eq. by rewrite bool_decide_eq_true_2.
    + destruct (map_get k taxMap) eqn:Hk; simpl.
      * destruct (map_get c taxMap); [done|].
        rewrite bool_decide_eq_false_2; [done | by intros [? _] ].
      * rewrite map_get_set_ne by done.
        destruct (map_get c taxMap); [done|].
        rewrite bool_decide_eq_false_2; [done | by intros [? _] ].
  - apply truthy_false in Hkey.
    destruct (map_get c taxMap); [done|].
    rewrite bool_decide_eq_false_2; [done|]. intros [<- ?]. done.
Qed.

Lemma taxMap_keeps (rows : list Row) (st : JsMap SalesAgg * JsMap num) c
    (v : num) :
  map_get c st.2 = Some v →
  map_get c (fold_left (salesAgg_row parseFloat) rows st).2 = Some v.
Proof.
  revert st. induction rows as [|row rows IH]; intros st Hst; simpl; [done|].
  apply IH. by rewrite taxMap_salesAgg_row, Hst.
Qed.

Lemma taxMap_untouched (rows : list Row) (st : JsMap SalesAgg * JsMap num) c :
  map_get c st.2 = None →
  (∀ r, r ∈ rows → or_str (r !! COL_S_CODE) "" ≠ c) →
  map_get c (fold_left (salesAgg_row parseFloat) rows st).2 = None.
Proof.
  revert st. induction rows as [|row rows IH]; intros st Hst Hno; simpl; [done|].
  apply IH.
  - rewrite taxMap_salesAgg_row, Hst.
    rewrite bool_decide_eq_false_2; [done|].
    intros [Heq _]. by apply (Hno row); [left|].
  - intros r Hr. apply Hno. by right.
Qed.

(** X7.  The tax rate of a product is the one of the first sales row of its code:
    later rows of the same code do not change it. *)
Theorem taxMap_first_row_wins (pre post : list Row) row (hs : list string) c :
  c ≠ "" →
  or_str (row !! COL_S_CODE) "" = c →
  (∀ r, r ∈ pre → or_str (r !! COL_S_CODE) "" ≠ c) →
  map_get c (aggregateSales parseFloat
               {| data := pre ++ row :: post; headers := hs |}).2
  = Some (or_num (parseFloatCell parseFloat (row !! COL_S_TAX_PCT)) 0).
Proof.
  intros Hne Hrow Hpre. unfold aggregateSales. simpl.
  rewrite fold_left_app. simpl. apply taxMap_keeps.
  rewrite taxMap_salesAgg_row, taxMap_untouched by done.
  by rewrite bool_decide_eq_true_2.
Qed.

Lemma fold_salesAgg_row_sum (rows : list Row)
    (st : JsMap SalesAgg * JsMap num) c :
  let cell col (r : Row) := or_num (parseFloatCell parseFloat (r !! col)) 0 in
  let a := sold_of c (fold_left (salesAgg_row parseFloat) rows st).1 in
  qty a = qty (sold_of c st.1)
          + sum_of (cell COL_S_QTY <$> rows_of COL_S_CODE c rows)
  ∧ total a = total (sold_of c st.1)
              + sum_of (cell COL_S_TOTAL <$> rows_of COL_S_CODE c rows)
  ∧ tax a = tax (sold_of c st.1)
            + sum_of (cell COL_S_TAX_AMT <$> rows_of COL_S_CODE c rows).
Proof.
  cbn zeta. revert st. unfold rows_of.
  induction rows as [|row rows IH]; intros st; simpl.
  - by rewrite !Qcplus_0_r.
  - destruct (IH (salesAgg_row parseFloat st row)) as (-> & -> & ->).
    destruct (sold_of_salesAgg_row parseFloat st row c) as (-> & -> & ->).
    rewrite filter_cons.
    destruct (decide (or_str (row !! COL_S_CODE) "" = c ∧ c ≠ "")) as [H|H].
    + rewrite bool_decide_eq_true_2 by done. rewrite !fmap_cons.
      cbn [sum_of foldr]. unfold sum_of. split_and!; ring.
    + rewrite bool_decide_eq_false_2 by done. unfold sum_of. split_and!; ring.
Qed.

(** X6.  The sold quantity, sales amount and tax aggregated for a code are the
    sums of the parsed cells of the sales rows of that code. *)
Theorem aggregateSales_sums (dfSales : ParsedCSV) c :
  let cell col (r : Row) := or_num (parseFloatCell parseFloat (r !! col)) 0 in
  let a := sold_of c (aggregateSales parseFloat dfSales).1 in
  qty a = sum_of (cell COL_S_QTY <$> rows_of COL_S_CODE c (data dfSales))
  ∧ total a = sum_of (cell COL_S_TOTAL <$> rows_of COL_S_CODE c (data dfSales))
  ∧ tax a = sum_of (cell COL_S_TAX_AMT <$> rows_of COL_S_CODE c (data dfSales)).
Proof.
  cbn zeta. unfold aggregateSales.
  destruct (fold_salesAgg_row_sum (data dfSales) ([], []) c) as (-> & -> & ->).
  unfold sold_of. simpl. split_and!; ring.
Qed.

End Aggregates.

(** ** From the ledgers to the report *)

Section Report.

Variable parseFloat : string -> option num.
Variable trim : string -> string.

Implicit Types (dfOpen dfPurch dfRet dfSales df : ParsedCSV)
  (targetSales targetTax : num) (c : string).

(** *** The inventory map *)

Lemma inventory_of_entry (o p r : JsMap num) (codes : list string) c
    (i : Inventory) :
  map_get c (inventory_of o p r codes) = Some i →
  i = {| inv_code := c; inv_q_open := group_sum c o;
         inv_q_purch := group_sum c p; inv_q_ret := group_sum c r;
         inv_available := group_sum c o + group_sum c p - group_sum c r |}.
Proof.
  unfold inventory_of. revert i.
  apply (fold_left_inv
           (fun m => ∀ i, map_get c m = Some i → i = _)); [|done].
  intros c' m Hm i. unfold inventory_set. rewrite map_get_set.
  case_decide as Hc; [|by apply Hm]. subst c'. by intros [= <-].
Qed.

Lemma inventory_of_is_Some (o p r : JsMap num) (codes : list string) c :
  c ∈ codes → is_Some (map_get c (inventory_of o p r codes)).
Proof.
  unfold inventory_of. intros Hc.
  assert (∀ m, c ∈ codes ∨ is_Some (map_get c m) →
               is_Some (map_get c (fold_left (inventory_set o p r) codes m)))
    as H; [|apply H; by left].
  clear Hc. induction codes as [|c' codes IH]; intros m [Hc|Hc]; simpl.
  - by apply elem_of_nil in Hc.
  - done.
  - apply IH. apply elem_of_cons in Hc as [->|Hc]; [right|by left].
    unfold inventory_set. by rewrite map_get_set_eq.
  - apply IH. right. unfold inventory_set. rewrite map_get_set.
    by case_decide.
Qed.

(** *** The rows of [finalData] after the merge *)

Lemma mergeData_inventory_fields dfOpen dfPurch dfRet dfSales (row : FinalRow) :
  row ∈ mergeData parseFloat trim dfOpen dfPurch dfRet dfSales →
  q_open row = group_sum (code row)
                 (groupBySum parseFloat (data dfOpen) COL_S_CODE
                    (getQtyCol trim dfOpen))
  ∧ q_purch row = group_sum (code row)
                    (groupBySum parseFloat (data dfPurch) COL_S_CODE
                       (getQtyCol trim dfPurch))
  ∧ q_ret row = group_sum (code row)
                  (groupBySum parseFloat (data dfRet) COL_S_CODE
                     (getQtyCol trim dfRet))
  ∧ available row = q_open row + q_purch row - q_ret row.
Proof.
  unfold mergeData.
  destruct (aggregateSales parseFloat dfSales) as [salesAgg taxMap].
  intros Hrow. apply list_elem_of_fmap in Hrow as (c & -> & Hc).
  unfold mergeRow. cbn [code q_open q_purch q_ret available].
  match goal with
  | |- context [map_get c (inventory_of ?o ?p ?r ?codes)] =>
      destruct (inventory_of_is_Some o p r codes c Hc) as [i Hi];
      pose proof (inventory_of_entry o p r codes c i Hi) as ->
  end.
  rewrite Hi. cbn [fmap option_fmap option_map inv_q_open inv_q_purch
                   inv_q_ret inv_available].
  rewrite !or_num_Some_0. by split_and!.
Qed.

(** X8.  Every row of [finalData] after the merge carries the sums aggregated for
    its code: the three inventory quantities, the available quantity as
    opening plus purchases minus returns, the sold quantity, amount and tax
    of the sales aggregate, and the ending balance as available minus sold. *)
Theorem mergeData_rows dfOpen dfPurch dfRet dfSales (row : FinalRow) :
  row ∈ mergeData parseFloat trim dfOpen dfPurch dfRet dfSales →
  let sold := sold_of (code row) (aggregateSales parseFloat dfSales).1 in
  q_open row = group_sum (code row)
                 (groupBySum parseFloat (data dfOpen) COL_S_CODE
                    (getQtyCol trim dfOpen))
  ∧ q_purch row = group_sum (code row)
                    (groupBySum parseFloat (data dfPurch) COL_S_CODE
                       (getQtyCol trim dfPurch))
  ∧ q_ret row = group_sum (code row)
                  (groupBySum parseFloat (data dfRet) COL_S_CODE
                     (getQtyCol trim dfRet))
  ∧ available row = q_open row + q_purch row - q_ret row
  ∧ s_qty row = qty sold ∧ s_total row = total sold ∧ s_tax_amt row = tax sold
  ∧ ending row = available row - s_qty row.
Proof.
  unfold mergeData.
  destruct (aggregateSales parseFloat dfSales) as [salesAgg taxMap] eqn:Hagg.
  intros Hrow. apply list_elem_of_fmap in Hrow as (c & -> & Hc).
  unfold mergeRow. cbn [code q_open q_purch q_ret available s_qty s_total
                        s_tax_amt ending].
  match goal with
  | |- context [map_get c (inventory_of ?o ?p ?r ?codes)] =>
      destruct (inventory_of_is_Some o p r codes c Hc) as [i Hi];
      pose proof (inventory_of_entry o p r codes c i Hi) as ->
  end.
  rewrite Hi. cbn [fmap option_fmap option_map inv_q_open inv_q_purch
                   inv_q_ret inv_available].
  rewrite !or_num_Some_0. unfold sold_of. by split_and!.
Qed.

(** *** What the later passes keep *)

Lemma Forall_transfer {A B : Type} (h : A -> B) (P : B -> Prop) (l l' : list A) :
  h <$> l' = h <$> l → Forall (fun x => P (h x)) l → Forall (fun x => P (h x)) l'.
Proof.
  intros Heq Hl. apply (Forall_fmap h P l'). rewrite Heq.
  by apply (Forall_fmap h P l).
Qed.

Lemma processData_report dfOpen dfPurch dfRet dfSales targetSales targetTax
    (report : list ReportRow) :
  processData parseFloat trim dfOpen dfPurch dfRet dfSales
    targetSales targetTax = Ok report →
  ∃ fd3, report = reportData_of (finalEnding fd3)
    ∧ ∀ (B : Type) (h : FinalRow -> B),
        (∀ r q x y, h (set_sold r q x y) = h r) →
        (∀ v r, h (set_sales_final v r) = h r) →
        (∀ v r, h (set_tax_final v r) = h r) →
        h <$> fd3 = h <$> mergeData parseFloat trim dfOpen dfPurch dfRet dfSales.
Proof.
  intros Hrun.
  destruct (processData_stages parseFloat trim dfOpen dfPurch dfRet dfSales
              targetSales targetTax) as (fd1 & _ & Hred & Hproc).
  rewrite Hproc in Hrun.
  apply bind_Ok in Hrun as (fd2 & Hrun2 & Hrun).
  apply bind_Ok in Hrun as (fd3 & Hrun3 & Hrun).
  injection Hrun as <-. exists fd3. split; [done|].
  intros B h H1 H2 H3.
  rewrite (taxTargeting_preserves h targetTax fd2 fd3) by done.
  rewrite (salesTargeting_preserves h targetSales fd1 fd2) by done.
  by apply redistributed_preserves.
Qed.

(** X9.  In every row of the report the three inventory columns are the sums
    aggregated from the ledgers for the code of the row, and the final ending
    balance is opening plus purchases minus returns minus the adjusted sold
    quantity of the same row. *)
Theorem report_inventory_columns dfOpen dfPurch dfRet dfSales
    targetSales targetTax (report : list ReportRow) (row : ReportRow) :
  processData parseFloat trim dfOpen dfPurch dfRet dfSales
    targetSales targetTax = Ok report →
  row ∈ report →
  r_open row = group_sum (r_code row)
                 (groupBySum parseFloat (data dfOpen) COL_S_CODE
                    (getQtyCol trim dfOpen))
  ∧ r_purch row = group_sum (r_code row)
                    (groupBySum parseFloat (data dfPurch) COL_S_CODE
                       (getQtyCol trim dfPurch))
  ∧ r_ret row = group_sum (r_code row)
                  (groupBySum parseFloat (data dfRet) COL_S_CODE
                     (getQtyCol trim dfRet))
  ∧ r_ending row = r_open row + r_purch row - r_ret row - r_qty row.
Proof.
  intros Hrun Hrow.
  destruct (processData_report _ _ _ _ _ _ _ Hrun) as (fd3 & -> & Hkeep).
  set (h := fun r : FinalRow =>
              (code r, q_open r, q_purch r, q_ret r, available r)).
  set (P := fun t : string * num * num * num * num =>
              let '(c, qo, qp, qr, av) := t in
              qo = group_sum c (groupBySum parseFloat (data dfOpen) COL_S_CODE
                                  (getQtyCol trim dfOpen))
              ∧ qp = group_sum c (groupBySum parseFloat (data dfPurch)
                                    COL_S_CODE (getQtyCol trim dfPurch))
              ∧ qr = group_sum c (groupBySum parseFloat (data dfRet)
                                    COL_S_CODE (getQtyCol trim dfRet))
              ∧ av = qo + qp - qr).
  assert (Forall (fun r => P (h r)) fd3) as Hall.
  { apply (Forall_transfer h P
             (mergeData parseFloat trim dfOpen dfPurch dfRet dfSales)).
    - by apply Hkeep.
    - apply Forall_forall. intros r Hr. unfold P, h.
      destruct (mergeData_inventory_fields _ _ _ _ r Hr) as (H1 & H2 & H3 & H4).
      rewrite <-H1, <-H2, <-H3. by split_and!. }
  unfold reportData_of, finalEnding in Hrow.
  rewrite <-list_fmap_compose in Hrow.
  apply list_elem_of_fmap in Hrow as (r & -> & Hr).
  rewrite Forall_forall in Hall. pose proof (Hall r Hr) as Hr4.
  unfold P, h in Hr4. destruct Hr4 as (H1 & H2 & H3 & H4).
  simpl. rewrite H4. by split_and!.
Qed.

(** *** The order of the report *)

Lemma fold_set_add_new_Set {A : Type} `{EqDecision A} (xs acc : list A) :
  fold_left set_add (new_Set xs) acc = fold_left set_add xs acc.
Proof.
  induction xs as [|x xs IH] using rev_ind; [done|].
  assert (new_Set (xs ++ [x]) = set_add (new_Set xs) x) as ->.
  { unfold new_Set. by rewrite fold_left_app. }
  rewrite (fold_left_app _ xs [x]). simpl.
  destruct (decide (x ∈ new_Set xs)) as [Hx|Hx].
  - assert (set_add (new_Set xs) x = new_Set xs) as ->.
    { unfold set_add. by rewrite bool_decide_eq_true_2. }
    rewrite IH. symmetry. unfold set_add.
    rewrite bool_decide_eq_true_2; [done|].
    apply fold_set_add_elem_of. right. by apply elem_of_new_Set.
  - assert (set_add (new_Set xs) x = new_Set xs ++ [x]) as ->.
    { unfold set_add. by rewrite bool_decide_eq_false_2. }
    by rewrite fold_left_app, IH.
Qed.

Lemma new_Set_app_new_Set {A : Type} `{EqDecision A} (pre xs post : list A) :
  new_Set (pre ++ new_Set xs ++ post) = new_Set (pre ++ xs ++ post).
Proof.
  unfold new_Set at 1 3. rewrite !fold_left_app. by rewrite fold_set_add_new_Set.
Qed.

Lemma new_Set_new_Set_app {A : Type} `{EqDecision A} (xs post : list A) :
  new_Set (new_Set xs ++ post) = new_Set (xs ++ post).
Proof. apply (new_Set_app_new_Set []). Qed.

(** X10.  The rows of the report follow the order in which the product codes first
    appear when the opening, purchase, return and sales ledgers are read one
    after the other. *)
Theorem report_order dfOpen dfPurch dfRet dfSales targetSales targetTax
    (report : list ReportRow) :
  processData parseFloat trim dfOpen dfPurch dfRet dfSales
    targetSales targetTax = Ok report →
  r_code <$> report
  = new_Set (keys_of COL_S_CODE (data dfOpen)
             ++ keys_of COL_S_CODE (data dfPurch)
             ++ keys_of COL_S_CODE (data dfRet)
             ++ keys_of COL_S_CODE (data dfSales)).
Proof.
  intros Hrun.
  destruct (processData_report _ _ _ _ _ _ _ Hrun) as (fd3 & -> & Hkeep).
  destruct (report_fields fd3) as (-> & _ & _).
  rewrite (Hkeep _ code) by done.
  rewrite code_mergeData. unfold allCodes_of, groupBySum.
  rewrite !fold_groupBySum_row_keys. simpl.
  change (fold_left set_add (keys_of COL_S_CODE (data dfOpen)) [])
    with (new_Set (keys_of COL_S_CODE (data dfOpen))).
  change (fold_left set_add (keys_of COL_S_CODE (data dfPurch)) [])
    with (new_Set (keys_of COL_S_CODE (data dfPurch))).
  change (fold_left set_add (keys_of COL_S_CODE (data dfRet)) [])
    with (new_Set (keys_of COL_S_CODE (data dfRet))).
  change (sales_codes dfSales) with (keys_of COL_S_CODE (data dfSales)).
  set (a := keys_of COL_S_CODE (data dfOpen)).
  set (b := keys_of COL_S_CODE (data dfPurch)).
  set (d := keys_of COL_S_CODE (data dfRet)).
  set (e := keys_of COL_S_CODE (data dfSales)).
  rewrite (new_Set_new_Set_app a).
  rewrite (new_Set_app_new_Set a b).
  rewrite (app_assoc a b), (new_Set_app_new_Set (a ++ b) d e).
  by rewrite <-app_assoc.
Qed.

(** *** When the run fails *)

Lemma mergeData_nil dfOpen dfPurch dfRet dfSales :
  mergeData parseFloat trim dfOpen dfPurch dfRet dfSales = []
  ↔ ∀ c, ¬ (has_code dfOpen c ∨ has_code dfPurch c ∨ has_code dfRet c
            ∨ has_code dfSales c).
Proof.
  split.
  - intros Hnil c Hc. apply (elem_of_mergeData_codes parseFloat trim) in Hc.
    rewrite Hnil in Hc. by apply elem_of_nil in Hc.
  - intros Hnone.
    destruct (mergeData parseFloat trim dfOpen dfPurch dfRet dfSales)
      as [|r l] eqn:Hm; [done|].
    destruct (Hnone (code r)).
    apply (elem_of_mergeData_codes parseFloat trim). rewrite Hm. by left.
Qed.

(** X11.  The run ends with an exception exactly when no ledger row has a
    non-empty product code and [targetSales] is not zero; with no product
    code and a zero [targetSales] the report is empty. *)
Theorem processData_throws_iff dfOpen dfPurch dfRet dfSales
    targetSales targetTax :
  ((∃ e, processData parseFloat trim dfOpen dfPurch dfRet dfSales
           targetSales targetTax = Throw e)
   ↔ (∀ c, ¬ (has_code dfOpen c ∨ has_code dfPurch c ∨ has_code dfRet c
              ∨ has_code dfSales c))
     ∧ targetSales ≠ 0)
  ∧ ((∀ c, ¬ (has_code dfOpen c ∨ has_code dfPurch c ∨ has_code dfRet c
              ∨ has_code dfSales c)) →
     targetSales = 0 →
     processData parseFloat trim dfOpen dfPurch dfRet dfSales
       targetSales targetTax = Ok []).
Proof.
  rewrite <-mergeData_nil.
  assert (mergeData parseFloat trim dfOpen dfPurch dfRet dfSales = [] →
          processData parseFloat trim dfOpen dfPurch dfRet dfSales
            targetSales targetTax
          = (if bool_decide (targetSales ≠ 0)
             then Throw (TypeError "Cannot read properties of undefined")
             else Ok [])) as Hempty.
  { intros Hnil. unfold processData. rewrite Hnil.
    change (distributeNegative []) with (Ok (@nil FinalRow)). simpl.
    rewrite salesTargeting_nil. case_bool_decide; [done|]. simpl.
    unfold taxTargeting. simpl. rewrite bool_decide_eq_false_2; [done|].
    intros [_ Hlen]. lia. }
  split; [split|].
  - intros [e He].
    destruct (decide (mergeData parseFloat trim dfOpen dfPurch dfRet dfSales = []))
      as [Hnil|Hne].
    + split; [done|]. intros H0. rewrite (Hempty Hnil) in He.
      by rewrite bool_decide_eq_false_2 in He by (by intros ?).
    + destruct (processData_Ok parseFloat trim dfOpen dfPurch dfRet dfSales
                  targetSales targetTax Hne)
        as (? & ? & ? & _ & _ & _ & _ & _ & _ & Hok).
      by rewrite Hok in He.
  - intros [Hnil Ht]. rewrite (Hempty Hnil).
    rewrite bool_decide_eq_true_2 by done. eauto.
  - intros Hnil Ht. rewrite (Hempty Hnil).
    by rewrite bool_decide_eq_false_2 by (by intros ?).
Qed.

End Report.

(** ** Redistribution: brackets, totals, donors *)

Section Brackets.

Implicit Types (fd s : list FinalRow) (it : Item) (items : list Item)
  (g : num) (done gs : list num).

Lemma taxGroups_each_run fd g :
  negItems fd g ≠ [] → posItems fd g ≠ [] →
  taxGroups_each fd g
  = (s1 ← foldlM (fun s it => modify it.2 (subtractMove it) s)
            (negItems fd g) fd;
     foldlM (posItems_each (totalsOf (negItems fd g))
               (totalPosSales_of (posItems fd g))) (posItems fd g) s1).
Proof.
  intros Hneg Hpos. unfold taxGroups_each.
  rewrite bool_decide_eq_true_2 by (by rewrite !length_pos_iff).
  rewrite foldlM_negItems_each.
  by destruct (foldlM _ (negItems fd g) fd).
Qed.

(** *** Brackets do not interfere *)

Lemma processed_step fd done s g s' :
  processed fd done s → g ∉ done → taxGroups_each s g = Ok s' →
  processed fd (g :: done) s'.
Proof.
  intros [Hlen Hinv] Hfresh Hrun.
  assert (grpIndices s g = grpIndices fd g) as Hgrp.
  { apply grpIndices_ext; [done|]. intros j r Hj.
    destruct (Hinv j r Hj) as ((r' & Hr' & Htax) & Hkeep & _).
    exists r'. split_and!; [done | done |].
    intros Hg. rewrite Hkeep in Hr' by (by rewrite Hg). by injection Hr'. }
  assert (negItems s g = negItems fd g) as Hneg by (unfold negItems; by rewrite Hgrp).
  assert (posItems s g = posItems fd g) as Hpos by (unfold posItems; by rewrite Hgrp).
  destruct (taxGroups_each_frame s g s' Hrun) as [Hlen' Hframe].
  split; [congruence|]. intros j r Hj.
  destruct (Hinv j r Hj) as ((r' & Hr' & Htax) & Hkeep & Hdone).
  destruct (Hframe j r' Hr') as (r'' & Hr'' & Hsame & Hfix).
  split_and!.
  - exists r''. split; [done|]. by rewrite (same_but_sold_tax_pct _ _ Hsame).
  - intros Hnin. apply not_elem_of_cons in Hnin as [Hne Hnin].
    rewrite Hr'', Hfix by congruence. rewrite <-Hr'. by apply Hkeep.
  - intros Hin fdg Hfdg.
    destruct (decide (s_tax_pct r = g)) as [Hg|Hg].
    + rewrite Hg in Hfdg. rewrite Hkeep in Hr' by (by rewrite Hg).
      injection Hr' as <-.
      destruct (decide (negItems fd g = [] ∨ posItems fd g = [])) as [Hidle|Hmv].
      * rewrite taxGroups_each_idle in Hfdg by done. injection Hfdg as <-.
        rewrite taxGroups_each_idle in Hrun by (by rewrite Hneg, Hpos).
        injection Hrun as <-. by rewrite Hkeep by (by rewrite Hg).
      * assert (negItems fd g ≠ [] ∧ posItems fd g ≠ []) as [Hn Hp] by tauto.
        destruct (taxGroups_each_moves fd g Hn Hp)
          as (fdg' & Hfdg' & _ & Hdon & Hrec & Hother).
        rewrite Hfdg in Hfdg'. injection Hfdg' as <-.
        destruct (taxGroups_each_moves s g) as (s2 & Hs2 & _ & Hdon' & Hrec' & Hother');
          [by rewrite Hneg | by rewrite Hpos |].
        rewrite Hrun in Hs2. injection Hs2 as <-.
        rewrite Hneg, Hpos in *.
        destruct (decide (j ∈ (negItems fd g).*2)) as [Hjn|Hjn].
        { apply list_elem_of_fmap in Hjn as (it & -> & Hit).
          by rewrite Hdon, Hdon'. }
        destruct (decide (j ∈ (posItems fd g).*2)) as [Hjp|Hjp].
        { apply list_elem_of_fmap in Hjp as (it & -> & Hit).
          by rewrite Hrec, Hrec'. }
        rewrite Hother, Hother' by done. rewrite Hj.
        apply Hkeep. by rewrite Hg.
    + apply elem_of_cons in Hin as [Heq|Hin]; [done|].
      rewrite Hr'', Hfix by congruence. rewrite <-Hr'. by apply Hdone.
Qed.

Lemma processed_fold fd gs done s :
  processed fd done s → NoDup gs → (∀ g, g ∈ gs → g ∉ done) →
  ∃ s' done', foldlM taxGroups_each gs s = Ok s'
    ∧ processed fd done' s' ∧ (∀ g, g ∈ done' ↔ g ∈ gs ∨ g ∈ done).
Proof.
  revert done s. induction gs as [|g gs IH]; intros done s Hs Hnd Hfresh; simpl.
  - exists s, done. split_and!; [done | done |]. intros g.
    rewrite elem_of_nil. tauto.
  - apply NoDup_cons in Hnd as [Hg Hnd].
    destruct (taxGroups_each_total s g) as [s1 Hrun]. rewrite Hrun. simpl.
    destruct (IH (g :: done) s1) as (s' & done' & Hrun' & Hproc & Hdone').
    + eapply processed_step; [done | | done]. apply Hfresh. by left.
    + done.
    + intros g' Hg' Hin. apply elem_of_cons in Hin as [->|Hin]; [done|].
      by apply (Hfresh g'); [right|].
    + exists s', done'. split_and!; [done | done |]. intros g'.
      rewrite Hdone', !elem_of_cons. tauto.
Qed.

Lemma distributeNegative_lookup fd fd' (j : nat) (r : FinalRow) fdg :
  distributeNegative fd = Ok fd' → fd !! j = Some r →
  taxGroups_each fd (s_tax_pct r) = Ok fdg → fd' !! j = fdg !! j.
Proof.
  intros Hrun Hj Hfdg.
  destruct (processed_fold fd (taxGroups_of fd) [] fd)
    as (fd2 & done' & Hrun2 & [Hlen Hinv] & Hdone).
  - split; [done|]. intros k x Hk. split_and!; [by eauto | done |].
    intros Hin. by apply elem_of_nil in Hin.
  - apply NoDup_new_Set.
  - intros g _ Hin. by apply elem_of_nil in Hin.
  - unfold distributeNegative in Hrun. rewrite Hrun in Hrun2.
    injection Hrun2 as <-.
    destruct (Hinv j r Hj) as (_ & _ & Hd). apply Hd; [|done].
    apply Hdone. left. apply elem_of_new_Set.
    apply list_elem_of_fmap_2. by eapply list_elem_of_lookup_2.
Qed.

(** X12.  The pass acts on every row as processing the bracket of that row alone
    on the data before the pass: the order of the brackets does not matter
    and no bracket changes what another one sees. *)
Theorem distributeNegative_by_bracket fd :
  ∃ fd', distributeNegative fd = Ok fd'
    ∧ length fd' = length fd
    ∧ ∀ j r fdg, fd !! j = Some r →
        taxGroups_each fd (s_tax_pct r) = Ok fdg → fd' !! j = fdg !! j.
Proof.
  destruct (distributeNegative_Ok fd) as (fd' & Hrun & Hlen & _).
  exists fd'. split_and!; [done | done |].
  intros j r fdg Hj Hfdg. by eapply distributeNegative_lookup.
Qed.

(** *** The totals of the sold fields *)

Lemma foldlM_modify_sum (f : FinalRow -> num)
    (upd : Item -> FinalRow -> FinalRow) (delta : Item -> num) items s s' :
  NoDup items.*2 →
  (∀ it, it ∈ items → s !! it.2 = Some it.1) →
  (∀ it r, f (upd it r) = f r + delta it) →
  foldlM (fun s it => modify it.2 (upd it) s) items s = Ok s' →
  sum_of (f <$> s') = sum_of (f <$> s) + sum_of (delta <$> items).
Proof.
  intros Hnd Hcur Hupd. revert s Hcur.
  induction items as [|it items IH]; intros s Hcur Hrun.
  - injection Hrun as <-. simpl. ring.
  - rewrite fmap_cons in Hnd. apply NoDup_cons in Hnd as [Hfresh Hnd].
    cbn [foldlM] in Hrun.
    rewrite (modify_Ok _ _ _ it.1) in Hrun by (apply Hcur; by left).
    simpl in Hrun.
    assert (∀ it', it' ∈ items →
              <[it.2 := upd it it.1]> s !! it'.2 = Some it'.1) as Hcur'.
    { intros it' Hit'. rewrite list_lookup_insert_ne; [apply Hcur; by right|].
      intros Heq. apply Hfresh. rewrite Heq. by apply (list_elem_of_fmap_2 snd). }
    rewrite (IH Hnd _ Hcur' Hrun).
    rewrite (sum_of_insert f s it.2 it.1) by (apply Hcur; by left).
    rewrite Hupd, fmap_cons. cbn [sum_of foldr]. unfold sum_of. ring.
Qed.

Lemma taxGroups_each_keeps_sum (f : FinalRow -> num) (mv : Item -> num)
    (tot : Totals -> num) fd g fd' :
  (∀ it r, f (subtractMove it r) = f r - mv it) →
  (∀ t S it r, f (addShare t S it r) = f r + s_total it.1 / S * tot t) →
  (∀ items, tot (totalsOf items) = reduce_sum mv items) →
  taxGroups_each fd g = Ok fd' →
  reduce_sum f fd' = reduce_sum f fd.
Proof.
  intros Hsub Hadd Htot Hrun.
  destruct (decide (negItems fd g = [] ∨ posItems fd g = [])) as [Hidle|Hmv].
  { rewrite taxGroups_each_idle in Hrun by done. by injection Hrun as <-. }
  assert (negItems fd g ≠ [] ∧ posItems fd g ≠ []) as [Hneg Hpos] by tauto.
  rewrite taxGroups_each_run in Hrun by done.
  apply bind_Ok in Hrun as (s1 & Hrun1 & Hrun2).
  destruct (foldlM_modify subtractMove (negItems fd g) fd)
    as (s1' & Hrun1' & _ & _ & Hmiss1).
  { apply negItems_NoDup. }
  { intros it Hit. apply elem_of_negItems in Hit as (_ & _ & ->). eauto. }
  rewrite Hrun1 in Hrun1'. injection Hrun1' as <-.
  pose proof (totalPosSales_pos fd g Hpos) as HS.
  set (S := totalPosSales_of (posItems fd g)) in *.
  set (T := totalsOf (negItems fd g)) in *.
  rewrite !reduce_sum_sum_of.
  rewrite (foldlM_modify_sum f (addShare T S)
             (fun it : Item => s_total it.1 * (/ S * tot T))
             (posItems fd g) s1 fd').
  - rewrite (foldlM_modify_sum f subtractMove (fun it => - mv it)
               (negItems fd g) fd s1).
    + rewrite sum_of_scale.
      assert (sum_of ((fun it : Item => s_total it.1) <$> posItems fd g) = S) as ->.
      { symmetry. apply (reduce_sum_sum_of (fun it : Item => s_total it.1)). }
      unfold T. rewrite Htot, reduce_sum_sum_of.
      assert (sum_of ((fun it => - mv it) <$> negItems fd g)
              = - sum_of (mv <$> negItems fd g)) as ->.
      { rewrite (sum_of_ext _ (fun it => mv it * - (1))) by (intros; ring).
        rewrite sum_of_scale. ring. }
      assert (S ≠ 0) as HS0.
      { intros H0. rewrite H0 in HS. by apply Qclt_not_eq in HS. }
      field. done.
    + apply negItems_NoDup.
    + intros it Hit. by apply elem_of_negItems in Hit as (_ & _ & ->).
    + intros it r. rewrite Hsub. ring.
    + done.
  - apply posItems_NoDup.
  - intros it Hit. rewrite Hmiss1.
    + by apply elem_of_posItems in Hit as (_ & _ & ->).
    + intros Hin. apply list_elem_of_fmap in Hin as (it' & Heq & Hit').
      by apply (negItems_posItems_disjoint fd g it' it).
  - intros it r. rewrite Hadd. unfold Qcdiv. ring.
  - exact Hrun2.
Qed.

Lemma foldlM_taxGroups_each_keeps_sum (f : FinalRow -> num) gs s :
  (∀ s g s', taxGroups_each s g = Ok s' → reduce_sum f s' = reduce_sum f s) →
  ∃ s', foldlM taxGroups_each gs s = Ok s' ∧ reduce_sum f s' = reduce_sum f s.
Proof.
  intros Hstep. revert s. induction gs as [|g gs IH]; intros s; simpl.
  - by exists s.
  - destruct (taxGroups_each_total s g) as [s1 Hrun]. rewrite Hrun. simpl.
    destruct (IH s1) as (s' & Hrun' & Hsum). exists s'. split; [done|].
    rewrite Hsum. by eapply Hstep.
Qed.

(** X13.  The pass moves value between rows and neither creates nor destroys any:
    the totals of sold quantity, sales amount and tax over all rows are the
    same after the pass as before it. *)
Theorem distributeNegative_keeps_totals fd :
  ∃ fd', distributeNegative fd = Ok fd'
    ∧ reduce_sum s_qty fd' = reduce_sum s_qty fd
    ∧ reduce_sum s_total fd' = reduce_sum s_total fd
    ∧ reduce_sum s_tax_amt fd' = reduce_sum s_tax_amt fd.
Proof.
  unfold distributeNegative.
  destruct (foldlM_taxGroups_each_keeps_sum s_qty (taxGroups_of fd) fd)
    as (fd' & Hrun & Hq).
  { intros s g s'.
    by apply (taxGroups_each_keeps_sum s_qty moveQty totalMoveQty). }
  destruct (foldlM_taxGroups_each_keeps_sum s_total (taxGroups_of fd) fd)
    as (fd2 & Hrun2 & Ht).
  { intros s g s'.
    by apply (taxGroups_each_keeps_sum s_total moveSales totalMoveSales). }
  destruct (foldlM_taxGroups_each_keeps_sum s_tax_amt (taxGroups_of fd) fd)
    as (fd3 & Hrun3 & Hx).
  { intros s g s'.
    by apply (taxGroups_each_keeps_sum s_tax_amt moveTax totalMoveTax). }
  rewrite Hrun in Hrun2, Hrun3. injection Hrun2 as <-. injection Hrun3 as <-.
  by exists fd'.
Qed.

(** *** What the pass does to a donor and to a neutral row *)

Lemma Qc_opp_pos (x : num) : x < 0 → 0 < - x.
Proof. intros H. apply Qclt_minus_iff in H. by rewrite Qcplus_0_l in H. Qed.

Lemma Qc_sub_nonneg (a b : num) : b ≤ a ↔ 0 ≤ a - b.
Proof. apply Qcle_minus_iff. Qed.

Lemma abs_nonneg (x : num) : 0 ≤ abs x.
Proof.
  unfold abs. case_bool_decide as H.
  - by apply Qclt_le_weak, Qc_opp_pos.
  - by apply Qcnot_lt_le.
Qed.


Lemma min_1_bounds (x : num) : 0 ≤ x → 0 ≤ min 1 x ∧ min 1 x ≤ 1.
Proof.
  intros Hx. unfold min. case_bool_decide as H.
  - split; [done | by apply Qclt_le_weak].
  - split; [done | apply Qcle_refl].
Qed.

Lemma deficitRatio_bounds it :
  0 ≤ s_qty it.1 → 0 ≤ deficitRatio it ∧ deficitRatio it ≤ 1.
Proof.
  intros Hq. rewrite deficitRatio_unfold. apply min_1_bounds.
  unfold Qcdiv. apply Qcmult_nonneg_nonneg; [apply abs_nonneg|].
  apply Qclt_le_weak, Qcinv_pos.
  destruct (decide (s_qty it.1 = 0)) as [H0|H0].
  - rewrite bool_decide_eq_true_2 by done. by_evaluation.
  - rewrite bool_decide_eq_false_2 by done.
    destruct (Qcle_lt_or_eq _ _ Hq) as [?|Heq]; [done | by destruct H0].
Qed.

Lemma scaled_down (v ratio : num) :
  0 ≤ v → 0 ≤ ratio → ratio ≤ 1 → 0 ≤ v - v * ratio ∧ v - v * ratio ≤ v.
Proof.
  intros Hv H0 H1. split.
  - assert (v - v * ratio = v * (1 - ratio)) as -> by ring.
    apply Qcmult_nonneg_nonneg; [done | by apply (proj1 (Qc_sub_nonneg _ _))].
  - apply (proj2 (Qc_sub_nonneg _ _)).
    assert (v - (v - v * ratio) = v * ratio) as -> by ring.
    by apply Qcmult_nonneg_nonneg.
Qed.

Lemma donor_after_pass fd (j : nat) (r : FinalRow) :
  fd !! j = Some r → ending r < 0 → posItems fd (s_tax_pct r) ≠ [] →
  ∃ fd', distributeNegative fd = Ok fd'
    ∧ fd' !! j = Some (subtractMove (r, j) r).
Proof.
  intros Hj Hneg Hpos.
  destruct (distributeNegative_Ok fd) as (fd' & Hrun & _).
  destruct (donor_after fd (s_tax_pct r) (r, j)) as (fdg & Hfdg & Hlk);
    [by apply elem_of_negItems | done |].
  exists fd'. split; [done|].
  by rewrite (distributeNegative_lookup fd fd' j r fdg Hrun Hj Hfdg).
Qed.

(** X14.  A donor whose sold quantity, sales amount and tax are not negative keeps
    them between zero and what they were: the share it gives away is capped
    at the whole. *)
Theorem donor_stays_nonnegative fd (j : nat) (r : FinalRow) :
  fd !! j = Some r → ending r < 0 → posItems fd (s_tax_pct r) ≠ [] →
  0 ≤ s_qty r → 0 ≤ s_total r → 0 ≤ s_tax_amt r →
  ∃ fd' r', distributeNegative fd = Ok fd' ∧ fd' !! j = Some r'
    ∧ (0 ≤ s_qty r' ∧ s_qty r' ≤ s_qty r)
    ∧ (0 ≤ s_total r' ∧ s_total r' ≤ s_total r)
    ∧ (0 ≤ s_tax_amt r' ∧ s_tax_amt r' ≤ s_tax_amt r).
Proof.
  intros Hj Hneg Hpos Hq Ht Hx.
  destruct (donor_after_pass fd j r Hj Hneg Hpos) as (fd' & Hrun & Hlk).
  destruct (deficitRatio_bounds (r, j) Hq) as [H0 H1].
  destruct (scaled_down (s_qty r) _ Hq H0 H1) as [Hq0 Hq1].
  destruct (scaled_down (s_total r) _ Ht H0 H1) as [Ht0 Ht1].
  destruct (scaled_down (s_tax_amt r) _ Hx H0 H1) as [Hx0 Hx1].
  exists fd', (subtractMove (r, j) r).
  split; [exact Hrun|]. split; [exact Hlk|].
  split; [split; [exact Hq0 | exact Hq1]|].
  split; [split; [exact Ht0 | exact Ht1]|].
  split; [exact Hx0 | exact Hx1].
Qed.


(** X16.  A row that is neither a donor nor a recipient (its ending balance is
    zero, or it is positive while the sales amount is not) comes out of the
    pass unchanged. *)
Theorem neutral_row_untouched fd (j : nat) (r : FinalRow) :
  fd !! j = Some r → ¬ ending r < 0 → ¬ (0 < ending r ∧ 0 < s_total r) →
  ∃ fd', distributeNegative fd = Ok fd' ∧ fd' !! j = Some r.
Proof.
  intros Hj Hnd Hnr.
  destruct (distributeNegative_Ok fd) as (fd' & Hrun & _).
  exists fd'. split; [done|].
  destruct (taxGroups_each_total fd (s_tax_pct r)) as [fdg Hfdg].
  rewrite (distributeNegative_lookup fd fd' j r fdg Hrun Hj Hfdg).
  destruct (decide (negItems fd (s_tax_pct r) = []
                    ∨ posItems fd (s_tax_pct r) = [])) as [Hidle|Hmv].
  - rewrite taxGroups_each_idle in Hfdg by done. by injection Hfdg as <-.
  - assert (negItems fd (s_tax_pct r) ≠ []
            ∧ posItems fd (s_tax_pct r) ≠ []) as [Hn Hp] by tauto.
    destruct (taxGroups_each_moves fd _ Hn Hp) as (fdg' & Hfdg' & _ & _ & _ & Hother).
    rewrite Hfdg in Hfdg'. injection Hfdg' as <-.
    rewrite Hother, Hj; [done | |].
    + intros Hin. apply list_elem_of_fmap in Hin as (it & -> & Hit).
      apply elem_of_negItems in Hit as (Hlt & _ & Hlk).
      rewrite Hj in Hlk. injection Hlk as ->. done.
    + intros Hin. apply list_elem_of_fmap in Hin as (it & -> & Hit).
      apply elem_of_posItems in Hit as (Hlt & _ & Hlk).
      rewrite Hj in Hlk. injection Hlk as ->. done.
Qed.

End Brackets.

(** ** Target balancing: where the correction goes *)

Section Correction.

Implicit Types (fd arr pre post : list FinalRow) (f : FinalRow -> num).

Lemma maxIdx_from f arr pre post (m : nat) (x : FinalRow) :
  arr = pre ++ post →
  arr !! m = Some x →
  (∀ j y, arr !! j = Some y → (j < length pre)%nat → f y ≤ f x) →
  (∀ j y, arr !! j = Some y → (j < m)%nat → f y < f x) →
  ∃ m', foldlM (maxIdx_each f arr)
          (imap (fun i r => ((length pre + i)%nat, r)) post) m = Ok m'
    ∧ first_max f arr m'.
Proof.
  revert pre m x. induction post as [|y post IH]; intros pre m x Harr Hm Hle Hlt.
  - exists m. split; [done|]. exists x. split_and!; [done | | done].
    intros j z Hj. apply (Hle j z Hj).
    rewrite Harr, app_nil_r in Hj. by eapply lookup_lt_Some.
  - rewrite imap_cons. cbn [foldlM].
    assert (maxIdx_each f arr m ((length pre + 0)%nat, y)
            = Ok (if bool_decide (f x < f y) then (length pre + 0)%nat else m))
      as ->.
    { unfold maxIdx_each. by rewrite Hm. }
    simpl.
    assert (imap ((fun i r => ((length pre + i)%nat, r)) ∘ S) post
            = imap (fun i r => ((length (pre ++ [y]) + i)%nat, r)) post) as ->.
    { apply imap_ext. intros i r _. simpl. f_equal. rewrite length_app. simpl. lia. }
    assert (arr !! length pre = Some y) as Hy.
    { rewrite Harr. by rewrite list_lookup_middle. }
    case_bool_decide as Hxy.
    + apply (IH (pre ++ [y]) _ y).
      * by rewrite <-app_assoc.
      * by rewrite Nat.add_0_r.
      * intros j z Hj Hjlt. rewrite length_app in Hjlt. simpl in Hjlt.
        destruct (decide (j = length pre)) as [->|Hne].
        -- rewrite Hy in Hj. injection Hj as ->. apply Qcle_refl.
        -- apply Qclt_le_weak, Qcle_lt_trans with (f x); [|done].
           apply (Hle j z Hj). lia.
      * intros j z Hj Hjlt. rewrite Nat.add_0_r in Hjlt.
        apply Qcle_lt_trans with (f x); [|done]. by apply (Hle j z Hj).
    + apply (IH (pre ++ [y]) _ x).
      * by rewrite <-app_assoc.
      * done.
      * intros j z Hj Hjlt. rewrite length_app in Hjlt. simpl in Hjlt.
        destruct (decide (j = length pre)) as [->|Hne].
        -- rewrite Hy in Hj. injection Hj as ->. by apply Qcnot_lt_le.
        -- apply (Hle j z Hj). lia.
      * done.
Qed.

(** X17.  The index the reduction of lines 240-241 returns is the position of the
    largest value, and of the first one when the largest value occurs more
    than once. *)
Theorem maxIdx_of_first_max f arr :
  arr ≠ [] → ∃ m, maxIdx_of f arr = Ok m ∧ first_max f arr m.
Proof.
  intros Hne. destruct arr as [|x arr']; [done|].
  apply (maxIdx_from f (x :: arr') [] (x :: arr') 0%nat x); [done | done | |].
  - intros j y _ Hj. simpl in Hj. lia.
  - intros j y _ Hj. lia.
Qed.

(** *** The sales pass, row by row *)

Lemma reduce_sum_set_sales_final (g : FinalRow -> num) fd :
  reduce_sum sales_final ((fun r => set_sales_final (g r) r) <$> fd)
  = sum_of (g <$> fd).
Proof.
  rewrite reduce_sum_sum_of, <-list_fmap_compose. by apply sum_of_ext.
Qed.

(** X18.  Every row gets its sales amount scaled by the ratio and floored; the
    whole difference between [targetSales] and the sum of the floored amounts
    is added to one row, the first of those with the largest floored
    amount. *)
Theorem salesTargeting_rows (targetSales : num) fd :
  fd ≠ [] →
  let floored := flooredSales targetSales fd in
  let salesDiff := targetSales - sum_of floored in
  ∃ fd' m,
    salesTargeting targetSales fd = Ok fd'
    ∧ (∀ j v, floored !! j = Some v →
         sales_final <$> fd' !! j
         = Some (if bool_decide (j = m) then v + salesDiff else v))
    ∧ (∃ v, floored !! m = Some v ∧ ∀ j w, floored !! j = Some w →
              w ≤ v ∧ ((j < m)%nat → w < v)).
Proof.
  intros Hne floored salesDiff.
  set (fd1 := (fun r => set_sales_final
                          (floor (s_total r * salesRatio_of targetSales fd)) r)
                <$> fd).
  assert (sales_final <$> fd1 = floored) as Hfl.
  { unfold fd1, floored, flooredSales. rewrite <-list_fmap_compose.
    by apply list_fmap_ext. }
  assert (reduce_sum sales_final fd1 = sum_of floored) as Hsum.
  { by rewrite reduce_sum_sum_of, Hfl. }
  assert (fd1 ≠ []) as Hne1 by (unfold fd1; by destruct fd).
  assert (∃ m, maxIdx_of sales_final fd1 = Ok m
               ∧ first_max sales_final fd1 m) as (m & Hm & x & Hx & Hle & Hlt).
  { destruct fd1 as [|x0 fd1'] eqn:Hfd1; [done|].
    apply (maxIdx_from sales_final (x0 :: fd1') [] (x0 :: fd1') 0%nat x0);
      [done | done | |].
    - intros j y _ Hj. simpl in Hj. lia.
    - intros j y _ Hj. lia. }
  assert (∃ v, floored !! m = Some v ∧ ∀ j w, floored !! j = Some w →
                 w ≤ v ∧ ((j < m)%nat → w < v)) as Hfirst.
  { exists (sales_final x). rewrite <-Hfl, list_lookup_fmap, Hx.
    split; [done|]. intros j w Hj. rewrite list_lookup_fmap in Hj.
    destruct (fd1 !! j) as [y|] eqn:Hy; [|done]. injection Hj as <-.
    split; [by apply (Hle j) | by apply (Hlt j)]. }
  unfold salesTargeting. fold fd1. rewrite Hsum. fold salesDiff.
  case_bool_decide as Hdiff.
  - rewrite Hm. simpl. rewrite (modify_Ok _ _ _ x Hx).
    eexists _, m. split_and!; [done | | done].
    intros j v Hj. rewrite <-Hfl, list_lookup_fmap in Hj.
    destruct (fd1 !! j) as [y|] eqn:Hy; [|done]. injection Hj as <-.
    case_bool_decide as Hjm.
    + subst j. rewrite list_lookup_insert_eq by (by eapply lookup_lt_Some).
      rewrite Hx in Hy. by injection Hy as ->.
    + rewrite list_lookup_insert_ne by done. by rewrite Hy.
  - exists fd1, m. split_and!; [done | | done].
    intros j v Hj. rewrite <-Hfl, list_lookup_fmap in Hj.
    destruct (fd1 !! j) as [y|] eqn:Hy; [|done]. injection Hj as <-.
    simpl. f_equal. case_bool_decide; [|done]. rewrite Hdiff. ring.
Qed.

(** *** Whole amounts *)

Lemma is_int_add (a b : num) : is_int a → is_int b → is_int (a + b).
Proof. intros [x ->] [y ->]. exists (x + y)%Z. by rewrite Z2Qc_inj_add. Qed.

Lemma is_int_sub (a b : num) : is_int a → is_int b → is_int (a - b).
Proof. intros [x ->] [y ->]. exists (x - y)%Z. by rewrite Z2Qc_inj_sub. Qed.

Lemma is_int_0 : is_int 0.
Proof. exists 0%Z. by rewrite Z2Qc_inj_0. Qed.

Lemma is_int_floor (x : num) : is_int (floor x).
Proof. by exists (Qfloor x). Qed.

Lemma is_int_reduce_sum f arr :
  Forall (fun r => is_int (f r)) arr → is_int (reduce_sum f arr).
Proof.
  rewrite reduce_sum_sum_of. induction 1 as [|r arr Hr _ IH]; simpl.
  - apply is_int_0.
  - by apply is_int_add.
Qed.

Lemma modify_Forall {A : Type} (P : A -> Prop) (upd : A -> A) (i : nat)
    (l l' : list A) :
  Forall P l → (∀ x, P x → P (upd x)) → modify i upd l = Ok l' → Forall P l'.
Proof.
  intros Hl Hupd. unfold modify. destruct (l !! i) as [x|] eqn:Hx; [|done].
  intros [= <-]. apply Forall_insert; [done|]. apply Hupd.
  by eapply Forall_lookup_1.
Qed.

Lemma salesTargeting_is_int (targetSales : num) fd fd' :
  is_int targetSales → salesTargeting targetSales fd = Ok fd' →
  Forall (fun r => is_int (sales_final r)) fd'.
Proof.
  intros Ht. unfold salesTargeting.
  set (fd1 := _ <$> fd).
  assert (Forall (fun r => is_int (sales_final r)) fd1) as H1.
  { unfold fd1. apply Forall_fmap, Forall_forall. intros r _.
    apply is_int_floor. }
  case_bool_decide as Hdiff; [|by intros [= <-] ].
  intros Hrun. apply bind_Ok in Hrun as (m & _ & Hrun).
  eapply modify_Forall; [exact H1 | | exact Hrun].
  intros r Hr. simpl. apply is_int_add; [done|].
  apply is_int_sub; [done | by apply is_int_reduce_sum].
Qed.

Lemma taxTargeting_is_int (targetTax : num) fd fd' :
  is_int targetTax → taxTargeting targetTax fd = Ok fd' →
  Forall (fun r => is_int (tax_final r)) fd'.
Proof.
  intros Ht. unfold taxTargeting.
  set (fd1 := _ <$> fd).
  assert (Forall (fun r => is_int (tax_final r)) fd1) as H1.
  { unfold fd1. apply Forall_fmap, Forall_forall. intros r _. simpl.
    case_bool_decide; [apply is_int_floor | apply is_int_0]. }
  case_bool_decide as Hdiff; [|by intros [= <-] ].
  intros Hrun. apply bind_Ok in Hrun as (m & _ & Hrun).
  eapply modify_Forall; [exact H1 | | exact Hrun].
  intros r Hr. simpl. apply is_int_add; [done|].
  apply is_int_sub; [done | by apply is_int_reduce_sum].
Qed.

(** X19.  Without a row of positive tax rate the tax pass sets every balanced tax
    to zero and applies no correction, whatever [targetTax] is. *)
Theorem taxTargeting_without_taxable (targetTax : num) fd :
  (∀ r, r ∈ fd → ¬ 0 < s_tax_pct r) →
  taxTargeting targetTax fd = Ok (set_tax_final 0 <$> fd).
Proof.
  intros Hnone. unfold taxTargeting.
  assert (taxableItems_of fd = []) as Hnil.
  { destruct (taxableItems_of fd) as [|r l] eqn:Hf; [done|].
    destruct (proj1 (taxableItems_nonempty fd)) as (r' & Hr' & Hpos);
      [by rewrite Hf|]. by destruct (Hnone r' Hr'). }
  rewrite bool_decide_eq_false_2.
  - f_equal. apply list_fmap_ext. intros i r Hr.
    rewrite bool_decide_eq_false_2; [done|].
    apply Hnone. by eapply list_elem_of_lookup_2.
  - rewrite Hnil. simpl. intros [_ H]. lia.
Qed.

End Correction.

Section WholeAmounts.

Variable parseFloat : string -> option num.
Variable trim : string -> string.

(** X20.  With whole targets every balanced sales amount and every balanced tax
    amount of the report is a whole number. *)
Theorem report_amounts_are_whole (dfOpen dfPurch dfRet dfSales : ParsedCSV)
    (targetSales targetTax : num) (report : list ReportRow) (row : ReportRow) :
  processData parseFloat trim dfOpen dfPurch dfRet dfSales
    targetSales targetTax = Ok report →
  is_int targetSales → is_int targetTax →
  row ∈ report →
  is_int (r_sales row) ∧ is_int (r_tax row).
Proof.
  intros Hrun Hs Ht Hrow.
  destruct (processData_stages parseFloat trim dfOpen dfPurch dfRet dfSales
              targetSales targetTax) as (fd1 & _ & _ & Hproc).
  rewrite Hproc in Hrun.
  apply bind_Ok in Hrun as (fd2 & Hrun2 & Hrun).
  apply bind_Ok in Hrun as (fd3 & Hrun3 & Hrun).
  injection Hrun as <-.
  pose proof (salesTargeting_is_int _ _ _ Hs Hrun2) as H2.
  pose proof (taxTargeting_is_int _ _ _ Ht Hrun3) as H3.
  assert (Forall (fun r => is_int (sales_final r)) fd3) as H2'.
  { apply (Forall_transfer sales_final is_int fd2); [|done].
    by apply (taxTargeting_preserves sales_final targetTax). }
  unfold reportData_of, finalEnding in Hrow.
  rewrite <-list_fmap_compose in Hrow.
  apply list_elem_of_fmap in Hrow as (r & -> & Hr).
  rewrite Forall_forall in H2', H3. simpl. split; [by apply H2' | by apply H3].
Qed.

End WholeAmounts.

(** ** The further properties on the example ledgers *)

Lemma getQtyCol_fallback_witness :
  getQtyCol trimSpaces exB_open = headers exB_open !! 1%nat
  ∧ ((length (headers exB_open) < 2)%nat → getQtyCol trimSpaces exB_open = None).
Proof.
  apply (getQtyCol_fallback trimSpaces exB_open).
  assert (Forall (fun h => Forall (fun p => trimSpaces h ≠ p) possible)
            (headers exB_open)) as HF by by_evaluation.
  intros h p Hh Hp. rewrite Forall_forall in HF. specialize (HF h Hh).
  rewrite Forall_forall in HF. exact (HF p Hp).
Defined.

Lemma getQtyCol_priority_witness :
  getQtyCol trimSpaces exE_inv = Some "تعداد واحد جز".
Proof.
  apply (getQtyCol_priority trimSpaces exE_inv [COL_S_CODE; " تعداد "]
           "تعداد واحد جز" [] [] "تعداد واحد جز" ["تعداد"; "مانده تعدادی"]).
  - reflexivity.
  - reflexivity.
  - intros h q _ Hq. by apply elem_of_nil in Hq.
  - assert (Forall (fun h => trimSpaces h ≠ "تعداد واحد جز")
              [COL_S_CODE; " تعداد "]) as HF by by_evaluation.
    intros h Hh. rewrite Forall_forall in HF. exact (HF h Hh).
  - reflexivity.
  - by_evaluation.
Defined.

Lemma getQtyCol_is_header_witness : "تعداد" ∈ headers exA_open.
Proof.
  apply (getQtyCol_is_header trimSpaces exA_open). reflexivity.
Defined.

Lemma taxMap_first_row_wins_witness :
  map_get "P2" (aggregateSales parseDecimal
                  {| data := exE_pre ++ exE_row :: exE_post;
                     headers := sales_headers |}).2
  = Some (or_num (parseFloatCell parseDecimal (exE_row !! COL_S_TAX_PCT)) 0).
Proof.
  apply (taxMap_first_row_wins parseDecimal exE_pre exE_post exE_row
           sales_headers "P2").
  - by_evaluation.
  - reflexivity.
  - assert (Forall (fun r : Row => or_str (r !! COL_S_CODE) "" ≠ "P2") exE_pre)
      as HF by by_evaluation.
    intros r Hr. rewrite Forall_forall in HF. exact (HF r Hr).
Defined.

Lemma mergeData_rows_witness :
  available exA_P5 = q_open exA_P5 + q_purch exA_P5 - q_ret exA_P5
  ∧ ending exA_P5 = available exA_P5 - s_qty exA_P5.
Proof.
  destruct (mergeData_rows parseDecimal trimSpaces exA_open exA_purch exA_ret
              exA_sales exA_P5) as (_ & _ & _ & Hav & _ & _ & _ & Hend).
  - by_evaluation.
  - split; [exact Hav | exact Hend].
Defined.

Lemma report_inventory_columns_witness :
  r_ending exA_report_P1
  = r_open exA_report_P1 + r_purch exA_report_P1 - r_ret exA_report_P1
    - r_qty exA_report_P1.
Proof.
  eapply (report_inventory_columns parseDecimal trimSpaces exA_open exA_purch
            exA_ret exA_sales (Qc_of_Z 2000) (Qc_of_Z 100) exA_report).
  - by_evaluation.
  - by_evaluation.
Defined.

Lemma report_order_witness :
  r_code <$> exA_report
  = new_Set (keys_of COL_S_CODE (data exA_open)
             ++ keys_of COL_S_CODE (data exA_purch)
             ++ keys_of COL_S_CODE (data exA_ret)
             ++ keys_of COL_S_CODE (data exA_sales)).
Proof.
  apply (report_order parseDecimal trimSpaces exA_open exA_purch exA_ret
           exA_sales (Qc_of_Z 2000) (Qc_of_Z 100)).
  by_evaluation.
Defined.

Lemma processData_throws_iff_witness :
  processData parseDecimal trimSpaces exD_open exC_none exC_none exD_sales
    0 (Qc_of_Z 10) = Ok [].
Proof.
  apply (processData_throws_iff parseDecimal trimSpaces exD_open exC_none
           exC_none exD_sales 0 (Qc_of_Z 10)).
  - intros c [H|[H|[H|H] ] ]; destruct H as (_ & row & Hrow & Hc).
    + apply list_elem_of_singleton in Hrow as ->. vm_compute in Hc. done.
    + by apply elem_of_nil in Hrow.
    + by apply elem_of_nil in Hrow.
    + apply list_elem_of_singleton in Hrow as ->. vm_compute in Hc. done.
  - reflexivity.
Defined.

Lemma donor_stays_nonnegative_witness :
  ∃ fd' r', distributeNegative exA_finalData = Ok fd' ∧ fd' !! 0%nat = Some r'
    ∧ (0 ≤ s_qty r' ∧ s_qty r' ≤ s_qty exA_P1)
    ∧ (0 ≤ s_total r' ∧ s_total r' ≤ s_total exA_P1)
    ∧ (0 ≤ s_tax_amt r' ∧ s_tax_amt r' ≤ s_tax_amt exA_P1).
Proof.
  apply (donor_stays_nonnegative exA_finalData 0 exA_P1); by_evaluation.
Defined.


Lemma neutral_row_untouched_witness :
  ∃ fd', distributeNegative exF_finalData = Ok fd' ∧ fd' !! 2%nat = Some exF_P7.
Proof.
  apply (neutral_row_untouched exF_finalData 2 exF_P7); by_evaluation.
Defined.

Lemma maxIdx_of_first_max_witness :
  ∃ m, maxIdx_of s_total exA_finalData = Ok m
    ∧ first_max s_total exA_finalData m.
Proof.
  apply (maxIdx_of_first_max s_total exA_finalData). by_evaluation.
Defined.

Lemma salesTargeting_rows_witness :
  ∃ fd' m,
    salesTargeting (Qc_of_Z 2000) exA_finalData = Ok fd'
    ∧ (∀ j v, flooredSales (Qc_of_Z 2000) exA_finalData !! j = Some v →
         sales_final <$> fd' !! j
         = Some (if bool_decide (j = m)
                 then v + (Qc_of_Z 2000
                           - sum_of (flooredSales (Qc_of_Z 2000) exA_finalData))
                 else v))
    ∧ (∃ v, flooredSales (Qc_of_Z 2000) exA_finalData !! m = Some v
         ∧ ∀ j w, flooredSales (Qc_of_Z 2000) exA_finalData !! j = Some w →
             w ≤ v ∧ ((j < m)%nat → w < v)).
Proof.
  apply (salesTargeting_rows (Qc_of_Z 2000) exA_finalData). by_evaluation.
Defined.

Lemma taxTargeting_without_taxable_witness :
  taxTargeting (Qc_of_Z 10) exB_finalData
  = Ok (set_tax_final 0 <$> exB_finalData).
Proof.
  apply (taxTargeting_without_taxable (Qc_of_Z 10) exB_finalData).
  assert (Forall (fun r => ¬ 0 < s_tax_pct r) exB_finalData) as HF
    by by_evaluation.
  intros r Hr. rewrite Forall_forall in HF. exact (HF r Hr).
Defined.

Lemma report_amounts_are_whole_witness :
  is_int (r_sales exA_report_P1) ∧ is_int (r_tax exA_report_P1).
Proof.
  apply (report_amounts_are_whole parseDecimal trimSpaces exA_open exA_purch
           exA_ret exA_sales (Qc_of_Z 2000) (Qc_of_Z 100) exA_report).
  - by_evaluation.
  - by exists 2000%Z.
  - by exists 100%Z.
  - by_evaluation.
Defined.
